(** * BFV over Z[x]/(x^n+1): a shallow embedding of bfv-py

    The development follows the Python sources file by file:
    - [Py]: the fragment of the Python runtime the code relies on
      (exceptions, list indexing, integer and true division, [round], [int]),
      and [Np]: [numpy.random.choice];
    - [polynomial.py]: [poly_add], [poly_mul_naive], [poly_div],
      [get_centered_remainder], [Polynomial], [PolynomialRing];
    - [bfv.py]: [RLWE], [BFV] (key generation, encryption, decryption with
      its noise assertion, homomorphic addition);
    - the CRT subsystem, whose module is not among the sources and is
      modelled from the design document.

    Python integers are [Z].  Python floats only occur as quotients of
    integers that are compared with integers or rounded; they are read as
    exact rationals ([Q]), which is what the binary64 values are while the
    integers involved stay below 2^53.  Polynomials are coefficient lists,
    highest degree first, as in the sources. *)

From Stdlib Require Import ZArith List Lia Lqa Bool QArith Qround Qabs Znumtheory Zcong.
Import ListNotations.

Close Scope Q_scope.
Open Scope Z_scope.

(* ------------------------------------------------------------------ *)
(** ** Python runtime *)

Inductive exn : Type :=
| ValueError
| AssertionError
| IndexError
| ZeroDivisionError.

Inductive result (A : Type) : Type :=
| Ok (a : A)
| Raise (e : exn).

Arguments Ok {A} a.
Arguments Raise {A} e.

Definition bind {A B : Type} (c : result A) (k : A -> result B) : result B :=
  match c with
  | Ok a => k a
  | Raise e => Raise e
  end.

Notation "x <- c ;; k" := (bind c (fun x => k))
  (at level 61, c at next level, right associativity).
Notation "' p <- c ;; k" := (bind c (fun x => let 'p := x in k))
  (at level 61, p pattern, c at next level, right associativity).


Definition returns {A : Type} (c : result A) : Prop :=
  exists a, c = Ok a.

Module Py.

(** [len(l)] *)
Definition len {A : Type} (l : list A) : Z := Z.of_nat (length l).

(** [[x] * k]: the empty list when [k] is negative. *)
Definition replicate {A : Type} (x : A) (k : Z) : list A :=
  repeat x (Z.to_nat k).

(** [l[i]] for a non-negative index. *)
Definition getitem {A : Type} (l : list A) (i : nat) : result A :=
  match nth_error l i with
  | Some x => Ok x
  | None => Raise IndexError
  end.

Fixpoint set_nth {A : Type} (l : list A) (i : nat) (v : A) : list A :=
  match l, i with
  | [], _ => []
  | _ :: t, O => v :: t
  | h :: t, S i' => h :: set_nth t i' v
  end.

(** [l[i] = v] for a non-negative index. *)
Definition setitem {A : Type} (l : list A) (i : nat) (v : A) : result (list A) :=
  if (i <? length l)%nat then Ok (set_nth l i v) else Raise IndexError.

(** [a // b] and [a % b] on integers: floor division, the remainder takes
    the sign of the divisor. *)
Definition floordiv (a b : Z) : result Z :=
  if b =? 0 then Raise ZeroDivisionError else Ok (a / b).

Definition mod_ (a b : Z) : result Z :=
  if b =? 0 then Raise ZeroDivisionError else Ok (a mod b).

(** [a / b] on integers (a float, read as the exact quotient). *)
Definition truediv (a b : Z) : result Q :=
  if b =? 0 then Raise ZeroDivisionError else Ok (inject_Z a / inject_Z b)%Q.

(** [x / k] for a float [x] and a non-zero integer literal [k]. *)
Definition fdiv (x : Q) (k : Z) : Q := (x / inject_Z k)%Q.

(** [x % 1] on a float. *)
Definition fmod1 (x : Q) : Q := (x - inject_Z (Qfloor x))%Q.

(** [int(x)] on a float: truncation towards zero. *)
Definition int_of_float (x : Q) : Z :=
  if Qle_bool 0 x then Qfloor x else Qceiling x.

(** [round(x)] on a float: nearest integer, ties to the even one. *)
Definition round (x : Q) : Z :=
  let f := Qfloor x in
  let d := (x - inject_Z f)%Q in
  match (d ?= 1 # 2)%Q with
  | Lt => f
  | Gt => f + 1
  | Eq => if Z.even f then f else f + 1
  end.

(** [a < b] and [a <= b] on floats. *)
Definition flt (a b : Q) : bool := negb (Qle_bool b a).
Definition fle (a b : Q) : bool := Qle_bool a b.

(** [for i in range(lo, lo + n): s = body(i, s)], stopping at the first
    exception. *)
Fixpoint for_range {St : Type} (lo n : nat) (body : nat -> St -> result St) (s : St)
  : result St :=
  match n with
  | O => Ok s
  | S n' => s' <- body lo s ;; for_range (S lo) n' body s'
  end.

(** [[f(x) for x in l]], stopping at the first exception. *)
Fixpoint mapM {A B : Type} (f : A -> result B) (l : list A) : result (list B) :=
  match l with
  | [] => Ok []
  | x :: t => y <- f x ;; ys <- mapM f t ;; Ok (y :: ys)
  end.

(** [while l and l[0] == 0: l.pop(0)], also [numpy.trim_zeros(l, "f")]. *)
Fixpoint strip_leading_zeros (l : list Z) : list Z :=
  match l with
  | [] => []
  | x :: t => if x =? 0 then strip_leading_zeros t else l
  end.

(** [l[:stop]] *)
Definition slice_to {A : Type} (l : list A) (stop : Z) : list A :=
  if stop <? 0 then firstn (Z.to_nat (len l + stop)) l
  else firstn (Z.to_nat stop) l.

(** [random.randint(a, b)]: some integer [N] with [a <= N <= b], chosen by
    the generator state [draw]; [ValueError] on an empty range. *)
Definition random_randint (a b : Z) (draw : Z) : result Z :=
  if b <? a then Raise ValueError else Ok (a + draw mod (b - a + 1)).

(** [assert b] *)
Definition assert (b : bool) : result unit :=
  if b then Ok tt else Raise AssertionError.

End Py.

(** The fragment of numpy that [bfv.py] relies on. *)
Module Np.

(** [numpy.random.choice(a, size=size)]: [size] elements of [a], the
    [i]-th one picked by the generator state [entropy i]; [ValueError] on a
    negative [size], and on an empty [a] when samples are asked for. *)
Definition random_choice (a : list Z) (size : Z) (entropy : nat -> Z)
  : result (list Z) :=
  if size <? 0 then Raise ValueError
  else if (Py.len a =? 0) && (0 <? size) then Raise ValueError
  else Ok (map (fun i => nth (Z.to_nat (entropy i mod Py.len a)) a 0)
               (seq 0 (Z.to_nat size))).

End Np.

(* ------------------------------------------------------------------ *)
(** ** polynomial.py *)

(** [poly_add]: the shorter operand is padded on the left; every index read
    is below [max_length], the length of both padded lists. *)
Definition poly_add (poly1 poly2 : list Z) : list Z :=
  let max_length := Z.max (Py.len poly1) (Py.len poly2) in
  let poly1 := Py.replicate 0 (max_length - Py.len poly1) ++ poly1 in
  let poly2 := Py.replicate 0 (max_length - Py.len poly2) ++ poly2 in
  map (fun i => nth i poly1 0 + nth i poly2 0) (seq 0 (Z.to_nat max_length)).

(** [poly_mul_naive]: [product[i + j] += poly1[i] * poly2[j]]; the index
    [i + j] is at most [len(poly1) + len(poly2) - 2], inside [product]. *)
Definition add_at (product : list Z) (k : nat) (x : Z) : list Z :=
  Py.set_nth product k (nth k product 0 + x).

Definition mul_row (poly1 poly2 : list Z) (product : list Z) (i : nat) : list Z :=
  fold_left (fun product j => add_at product (i + j) (nth i poly1 0 * nth j poly2 0))
            (seq 0 (length poly2)) product.

Definition poly_mul_naive (poly1 poly2 : list Z) : list Z :=
  let product_len := Py.len poly1 + Py.len poly2 - 1 in
  let product := Py.replicate 0 product_len in
  fold_left (mul_row poly1 poly2) (seq 0 (length poly1)) product.

(** [poly_div]: schoolbook long division, highest degree first. *)
Definition poly_div_inner (divisor : list Z) (i : nat) (coeff : Z) (remainder : list Z)
  : result (list Z) :=
  Py.for_range 0 (length divisor)
    (fun j remainder =>
       rem <- Py.getitem remainder (i + j) ;;
       dj <- Py.getitem divisor j ;;
       Py.setitem remainder (i + j) (rem - dj * coeff))
    remainder.

Definition poly_div_step (divisor : list Z) (i : nat) (st : list Z * list Z)
  : result (list Z * list Z) :=
  let '(quotient, remainder) := st in
  ri <- Py.getitem remainder i ;;
  d0 <- Py.getitem divisor 0 ;;
  coeff <- Py.floordiv ri d0 ;;
  quotient <- Py.setitem quotient i coeff ;;
  remainder <- poly_div_inner divisor i coeff remainder ;;
  Ok (quotient, remainder).

Definition poly_div (dividend divisor : list Z) : result (list Z * list Z) :=
  let quotient := Py.replicate 0 (Py.len dividend - Py.len divisor + 1) in
  let remainder := dividend in
  ' (quotient, remainder) <-
      Py.for_range 0 (length quotient) (poly_div_step divisor) (quotient, remainder) ;;
  Ok (quotient, Py.strip_leading_zeros remainder).

Definition get_centered_remainder (x modulus : Z) : result Z :=
  r <- Py.mod_ x modulus ;;
  Ok (if Py.fle (inject_Z r) (Py.fdiv (inject_Z modulus) 2) then r else r - modulus).

Definition get_standard_form (x modulus : Z) : result Z :=
  r <- Py.mod_ x modulus ;;
  Ok (if 0 <=? r then r else r + modulus).

Record PolynomialRing : Type := mkPolynomialRing {
  denominator : list Z;
  modulus : Z;
  ring_n : Z
}.

(** [n > 0 and (n & (n - 1)) == 0] *)
Definition is_power_of_two (n : Z) : bool :=
  (0 <? n) && (Z.land n (n - 1) =? 0).

(** [PolynomialRing.__init__] *)
Definition PolynomialRing_init (n modulus : Z) : result PolynomialRing :=
  _ <- Py.assert (is_power_of_two n) ;;
  let fx := [1] ++ Py.replicate 0 (n - 1) ++ [1] in
  Ok (mkPolynomialRing fx modulus n).

Record Polynomial : Type := mkPolynomial { coefficients : list Z }.

(** [Polynomial.reduce_coefficients_by_modulus] *)
Definition reduce_coefficients_by_modulus (self : Polynomial) (modulus : Z)
  : result Polynomial :=
  cs <- Py.mapM (fun c => get_centered_remainder c modulus) (coefficients self) ;;
  Ok (mkPolynomial cs).

(** [Polynomial.reduce_coefficients_by_cyclo] *)
Definition reduce_coefficients_by_cyclo (self : Polynomial) (cyclo : list Z)
  : result Polynomial :=
  ' (_, remainder) <- poly_div (coefficients self) cyclo ;;
  let n := Py.len cyclo - 1 in
  let remainder := Py.replicate 0 (n - Py.len remainder) ++ remainder in
  _ <- Py.assert (Py.len remainder =? n) ;;
  Ok (mkPolynomial remainder).

(** [Polynomial.reduce_in_ring] *)
Definition reduce_in_ring (self : Polynomial) (ring : PolynomialRing)
  : result Polynomial :=
  self <- reduce_coefficients_by_cyclo self (denominator ring) ;;
  reduce_coefficients_by_modulus self (modulus ring).

(** [Polynomial.__add__] *)
Definition Polynomial_add (self other : Polynomial) : Polynomial :=
  mkPolynomial (poly_add (coefficients self) (coefficients other)).

(** [Polynomial.evaluate]: Horner's rule from the leading coefficient. *)
Definition evaluate (self : Polynomial) (x : Z) : Z :=
  fold_left (fun result coeff => result * x + coeff) (coefficients self) 0.


(** [PolynomialRing.sample_polynomial]; [entropy i] is the generator state
    behind the [i]-th call of [random.randint]. *)
Definition sample_polynomial (self : PolynomialRing) (entropy : nat -> Z)
  : result Polynomial :=
  let lower_bound := Py.fdiv (inject_Z (- (modulus self - 1))) 2 in
  let upper_bound := Py.fdiv (inject_Z (modulus self - 1)) 2 in
  _ <- Py.assert (Qeq_bool (Py.fmod1 lower_bound) 0 && Qeq_bool (Py.fmod1 upper_bound) 0) ;;
  coeffs <- Py.mapM
              (fun i => Py.random_randint (Py.int_of_float lower_bound)
                                          (Py.int_of_float upper_bound) (entropy i))
              (seq 0 (Z.to_nat (ring_n self))) ;;
  Ok (mkPolynomial coeffs).

(** [l1 == l2] on lists of integers. *)
Fixpoint list_eq (l1 l2 : list Z) : bool :=
  match l1, l2 with
  | [], [] => true
  | x :: t1, y :: t2 => (x =? y) && list_eq t1 t2
  | _, _ => false
  end.

(** [PolynomialRing.__eq__] against another [PolynomialRing]: the field
    [n] is not compared. *)
Definition PolynomialRing_eq (self other : PolynomialRing) : bool :=
  list_eq (denominator self) (denominator other) && (modulus self =? modulus other).

(** [Polynomial.__eq__] against another [Polynomial]. *)
Definition Polynomial_eq (self other : Polynomial) : bool :=
  list_eq (coefficients self) (coefficients other).

(** [poly_mul]: multiplication through the transform of [bfv/fft.py].  That
    module is not among the sources; the transform, its complex numbers and
    their product are parameters. *)
Module FFT.
Section Engine.

Variable complex : Type.
Variable recursive_fft : list Z -> list complex.
Variable recursive_ifft : list complex -> list complex.
Variable cmul : complex -> complex -> complex.
Variable real : complex -> Q.

(** [n = 1; while n < product_len: n *= 2] *)
Fixpoint next_power_of_two (fuel : nat) (n product_len : Z) : Z :=
  match fuel with
  | O => n
  | S fuel' =>
      if n <? product_len then next_power_of_two fuel' (n * 2) product_len else n
  end.

(** [poly_mul] up to [product_coeffs_no_pad], the complex coefficients
    after the final [reverse()]. *)
Definition product_coeffs_no_pad (poly1 poly2 : list Z) : result (list complex) :=
  let product_len := Py.len poly1 + Py.len poly2 - 1 in
  let poly1_padded := Py.replicate 0 (product_len - Py.len poly1) ++ poly1 in
  let poly2_padded := Py.replicate 0 (product_len - Py.len poly2) ++ poly2 in
  let n := next_power_of_two (Z.to_nat product_len) 1 product_len in
  let poly1_padded := Py.replicate 0 (n - product_len) ++ poly1_padded in
  let poly2_padded := Py.replicate 0 (n - product_len) ++ poly2_padded in
  let poly1_reversed := rev poly1_padded in
  let poly2_reversed := rev poly2_padded in
  let fft_evals1 := recursive_fft poly1_reversed in
  let fft_evals2 := recursive_fft poly2_reversed in
  fft_product_evals <-
    Py.mapM (fun i => x <- Py.getitem fft_evals1 i ;;
                      y <- Py.getitem fft_evals2 i ;;
                      Ok (cmul x y))
            (seq 0 (Z.to_nat n)) ;;
  let product_coeffs := recursive_ifft fft_product_evals in
  let product_padding := Py.len product_coeffs - product_len in
  let product_coeffs_no_pad :=
    if product_padding =? 0 then product_coeffs
    else Py.slice_to product_coeffs (- product_padding) in
  Ok (rev product_coeffs_no_pad).

(** [poly_mul]: [[int(coeff.real) for coeff in product_coeffs_no_pad]] *)
Definition poly_mul (poly1 poly2 : list Z) : result (list Z) :=
  product_coeffs_no_pad <- product_coeffs_no_pad poly1 poly2 ;;
  Ok (map (fun coeff => Py.int_of_float (real coeff)) product_coeffs_no_pad).

End Engine.
End FFT.

(** A transform to run [FFT.poly_mul] with: the discrete Fourier transform
    of length 1, 2 or 4 over the Gaussian rationals (the root of unity is a
    power of [i]), whose inverse returns every real part [round_off] below
    its exact value, as a floating-point transform may. *)
Module FFTExample.

Definition complex : Type := (Q * Q)%type.

Definition cadd (x y : complex) : complex :=
  (fst x + fst y, snd x + snd y)%Q.

Definition cmul (x y : complex) : complex :=
  (fst x * fst y - snd x * snd y, fst x * snd y + snd x * fst y)%Q.

Definition real (x : complex) : Q := fst x.

(** [i ^ k] *)
Definition i_pow (k : nat) : complex :=
  match (k mod 4)%nat with
  | 0%nat => (1, 0)%Q
  | 1%nat => (0, 1)%Q
  | 2%nat => (-1, 0)%Q
  | _ => (0, -1)%Q
  end.

Definition dft (sign : nat) (l : list complex) : list complex :=
  let len := length l in
  map (fun k =>
         fold_right cadd (0, 0)%Q
           (map (fun j => cmul (nth j l (0, 0)%Q) (i_pow (sign * j * k * (4 / len))))
                (seq 0 len)))
      (seq 0 len).

Definition round_off : Q := 1 # (2 ^ 40).

Definition recursive_fft (coeffs : list Z) : list complex :=
  dft 1 (map (fun c => (inject_Z c, 0)%Q) coeffs).

Definition recursive_ifft (evals : list complex) : list complex :=
  map (fun c => (fst c / inject_Z (Py.len evals) - round_off,
                 snd c / inject_Z (Py.len evals))%Q)
      (dft 3 evals).

Definition product_coeffs_no_pad : list Z -> list Z -> result (list complex) :=
  FFT.product_coeffs_no_pad complex recursive_fft recursive_ifft cmul.

Definition poly_mul : list Z -> list Z -> result (list Z) :=
  FFT.poly_mul complex recursive_fft recursive_ifft cmul real.

End FFTExample.

(* ------------------------------------------------------------------ *)
(** ** bfv.py *)

(** Modelled from the spec: [bfv/discrete_gauss.py] is not among the
    sources; the sampler is constructed with a standard deviation, which is
    all [RLWE] stores of it. *)
Record DiscreteGaussian : Type := mkDiscreteGaussian { sigma : Q }.

Record RLWE : Type := mkRLWE {
  n : Z;
  Rq : PolynomialRing;
  Rt : PolynomialRing;
  distribution : DiscreteGaussian
}.

(** [RLWE.is_prime]: trial division by 2, ..., n - 1. *)
Definition is_prime (n : Z) : bool :=
  if n <? 2 then false
  else forallb (fun i => negb (n mod i =? 0))
               (map Z.of_nat (seq 2 (Z.to_nat n - 2))).

(** [RLWE.__init__] *)
Definition RLWE_init (n q t : Z) (distribution : DiscreteGaussian) : result RLWE :=
  if q <? t then Raise ValueError
  else
    _ <- Py.assert (is_power_of_two n) ;;
    _ <- Py.assert (1 <? q) ;;
    _ <- Py.assert (1 <? t) ;;
    _ <- Py.assert (is_prime t) ;;
    _ <- Py.assert (Z.gcd q t =? 1) ;;
    Rq <- PolynomialRing_init n q ;;
    Rt <- PolynomialRing_init n t ;;
    Ok (mkRLWE n Rq Rt distribution).

(** [RLWE.SampleFromTernaryDistribution]; [int(coeff)] leaves the integers
    drawn by numpy as they are. *)
Definition SampleFromTernaryDistribution (self : RLWE) (entropy : nat -> Z)
  : result Polynomial :=
  coefficients <- Np.random_choice [-1; 0; 1] (n self) entropy ;;
  let coefficients_int := map (fun coeff => coeff) coefficients in
  Ok (mkPolynomial coefficients_int).

(** [BFV.SecretKeyGen] *)
Definition SecretKeyGen (rlwe : RLWE) (entropy : nat -> Z) : result Polynomial :=
  SampleFromTernaryDistribution rlwe entropy.

(** The scheme.  [Polynomial.__mul__] calls [poly_mul]; the operations are
    stated over the multiplication routine they are run with. *)
Section Scheme.

Variable poly_mul : list Z -> list Z -> list Z.

(** [Polynomial.__mul__] *)
Definition Polynomial_mul (self other : Polynomial) : Polynomial :=
  mkPolynomial (poly_mul (coefficients self) (coefficients other)).

Local Infix "+" := Polynomial_add.
Local Infix "*" := Polynomial_mul.

(** [BFV.PublicKeyGen] *)
Definition PublicKeyGen (rlwe : RLWE) (s e : Polynomial) (entropy : nat -> Z)
  : result (Polynomial * Polynomial) :=
  a <- sample_polynomial (Rq rlwe) entropy ;;
  let mul := a * s in
  let b := mul + e in
  pk0 <- reduce_in_ring b (Rq rlwe) ;;
  let pk1 := a * mkPolynomial [-1] in
  Ok (pk0, pk1).

(** [BFV.Encrypt] *)
Definition Encrypt (rlwe : RLWE) (public_key : Polynomial * Polynomial)
           (m : Polynomial) (error : Polynomial * Polynomial) (u : Polynomial)
           (delta : Z) : result (Polynomial * Polynomial) :=
  let e0 := fst error in
  let e1 := snd error in
  let delta_m := mkPolynomial [delta] * m in
  let pk0_u := fst public_key * u in
  let ct_0 := delta_m + pk0_u + e0 in
  ct_0 <- reduce_in_ring ct_0 (Rq rlwe) ;;
  let pk1_u := snd public_key * u in
  let ct_1 := pk1_u + e1 in
  ct_1 <- reduce_in_ring ct_1 (Rq rlwe) ;;
  Ok (ct_0, ct_1).

(** [BFV.EncryptConst] *)
Definition EncryptConst (rlwe : RLWE) (public_key : Polynomial * Polynomial)
           (m : Polynomial) (u : Polynomial) (delta : Z)
  : result (Polynomial * Polynomial) :=
  let delta_m := mkPolynomial [delta] * m in
  let pk0_u := fst public_key * u in
  let ct_0 := delta_m + pk0_u in
  ct_0 <- reduce_in_ring ct_0 (Rq rlwe) ;;
  let ct_1 := snd public_key * u in
  ct_1 <- reduce_in_ring ct_1 (Rq rlwe) ;;
  Ok (ct_0, ct_1).

(** The polynomial [v = u * e + e0 + s * e1] of [BFV.Decrypt]. *)
Definition noise (s : Polynomial) (error : Polynomial * Polynomial)
           (e u : Polynomial) : Polynomial :=
  let u_e := u * e in
  let s_e1 := s * snd error in
  let v := u_e + fst error in
  v + s_e1.

(** [threshold = q / (2 * t) - rt_Q / 2] with [rt_Q = q % t] *)
Definition noise_threshold (q t : Z) : result Q :=
  rt_Q <- Py.mod_ q t ;;
  q_2t <- Py.truediv q (2 * t) ;;
  Ok (q_2t - Py.fdiv (inject_Z rt_Q) 2)%Q.

(** [BFV.Decrypt] *)
Definition Decrypt (rlwe : RLWE) (secret_key : Polynomial)
           (ciphertext : Polynomial * Polynomial)
           (error : Polynomial * Polynomial) (e u : Polynomial)
  : result Polynomial :=
  let ct0 := fst ciphertext in
  let ct1 := snd ciphertext in
  let s := secret_key in
  let t := modulus (Rt rlwe) in
  let q := modulus (Rq rlwe) in
  let v := noise s error e u in
  threshold <- noise_threshold q t ;;
  _ <- Py.assert (forallb (fun coeff => Py.flt (inject_Z (Z.abs coeff)) threshold)
                          (coefficients v)) ;;
  let ct1_s := ct1 * s in
  let numerator_1 := ct0 + ct1_s in
  numerator_1 <- reduce_in_ring numerator_1 (Rq rlwe) ;;
  let numerator := mkPolynomial [t] * numerator_1 in
  quotient <- Py.mapM (fun coeff => x <- Py.truediv coeff q ;; Ok (Py.round x))
                      (coefficients numerator) ;;
  let quotient := Py.strip_leading_zeros quotient in
  let quotient_poly := mkPolynomial quotient in
  reduce_in_ring quotient_poly (Rt rlwe).

(** [BFV.EvalAdd] *)
Definition EvalAdd (rlwe : RLWE) (ciphertext1 ciphertext2 : Polynomial * Polynomial)
  : result (Polynomial * Polynomial) :=
  let ct0 := fst ciphertext1 + fst ciphertext2 in
  ct0 <- reduce_in_ring ct0 (Rq rlwe) ;;
  let ct1 := snd ciphertext1 + snd ciphertext2 in
  ct1 <- reduce_in_ring ct1 (Rq rlwe) ;;
  Ok (ct0, ct1).

End Scheme.

(* ------------------------------------------------------------------ *)
(** ** The CRT subsystem *)

Module CRT.

(** Modelled from the spec: [bfv/crt.py] is not among the sources.
    [CRTModuli] holds the factors [qis] and their product [q]; its
    constructor checks that the factors are pairwise coprime and that each
    is below the fixed bound [qi_bound]. *)
Record CRTModuli : Type := mkCRTModuli { qis : list Z; q : Z }.

Fixpoint pairwise_coprime (qis : list Z) : bool :=
  match qis with
  | [] => true
  | qi :: rest => forallb (fun qj => Z.gcd qi qj =? 1) rest && pairwise_coprime rest
  end.

Definition product (qis : list Z) : Z := fold_right Z.mul 1 qis.

Definition CRTModuli_init (qi_bound : Z) (qis : list Z) : result CRTModuli :=
  _ <- Py.assert (pairwise_coprime qis) ;;
  _ <- Py.assert (forallb (fun qi => qi <? qi_bound) qis) ;;
  Ok (mkCRTModuli qis (product qis)).

(** Modelled from the spec: [CRTInteger] is a tuple of residues, one per
    factor. *)
Record CRTInteger : Type := mkCRTInteger { crt_moduli : CRTModuli; xis : list Z }.

(** [CRTInteger.from_integer]: [xis[i] = x mod qi]. *)
Definition from_integer (moduli : CRTModuli) (x : Z) : CRTInteger :=
  mkCRTInteger moduli (map (fun qi => x mod qi) (qis moduli)).

(** [CRTInteger.from_crt_components]: stores the residues directly. *)
Definition from_crt_components (moduli : CRTModuli) (xis : list Z) : CRTInteger :=
  mkCRTInteger moduli xis.

(** [CRTInteger.recover]: [Mi = q / qi], [Ni = Mi^{-1} mod qi],
    [x = sum xis[i] * Mi * Ni mod q]. *)
Definition crt_term (q : Z) (xi_qi : Z * Z) : Z :=
  let '(xi, qi) := xi_qi in
  let Mi := q / qi in
  let Ni := Z.invmod Mi qi in
  xi * Mi * Ni.

Definition recover (self : CRTInteger) : Z :=
  let q := q (crt_moduli self) in
  fold_right Z.add 0 (map (crt_term q) (combine (xis self) (qis (crt_moduli self))))
    mod q.




(** The sum of [recover] before its final reduction. *)
Definition crt_sum (q : Z) (xis qis : list Z) : Z :=
  fold_right Z.add 0 (map (crt_term q) (combine xis qis)).

End CRT.

(* ------------------------------------------------------------------ *)
(** ** Specification-level definitions

    Structural counterparts of the index loops above, and the module
    Z^n = Z[x]/(x^n+1) on which polynomials act; they are what the loops
    are proved to compute. *)

Definition zeros (k : nat) : list Z := repeat 0 k.

(** Left padding with zeros up to [m] coefficients. *)
Definition pad (m : nat) (l : list Z) : list Z := zeros (m - length l) ++ l.

Fixpoint zip_add (a b : list Z) : list Z :=
  match a, b with
  | x :: a', y :: b' => (x + y) :: zip_add a' b'
  | _, _ => []
  end.

Definition scale (c : Z) (l : list Z) : list Z := map (Z.mul c) l.

(** [axpy c d r]: [r[j] + c * d[j]] on the first [len d] entries of [r]. *)
Fixpoint axpy (c : Z) (d r : list Z) : list Z :=
  match r, d with
  | x :: r', y :: d' => (x + c * y) :: axpy c d' r'
  | _, _ => r
  end.

(** [k] steps of long division of [r] by [d], as a recursion on the
    coefficient list: the quotient digits and the updated remainder. *)
Fixpoint div_steps (k : nat) (r d : list Z) : list Z * list Z :=
  match k with
  | O => ([], r)
  | S k' =>
      let coeff := hd 0 r / hd 0 d in
      match axpy (- coeff) d r with
      | [] => ([], [])
      | x :: r' => let (q, rem) := div_steps k' r' d in (coeff :: q, x :: rem)
      end
  end.

(** The cyclotomic polynomial [x^n + 1] as [PolynomialRing] stores it. *)
Definition cyclo (n : nat) : list Z := [1] ++ zeros (n - 1) ++ [1].

(** The centered remainder as an integer function. *)
Definition centered (m x : Z) : Z :=
  let r := x mod m in if 2 * r <=? m then r else r - m.

(** Vectors of [n] coefficients, highest degree first. *)
Definition vec (n : nat) (f : nat -> Z) : list Z := map f (seq 0 n).

Definition vadd (n : nat) (u v : list Z) : list Z :=
  vec n (fun i => nth i u 0 + nth i v 0).

Definition vscale (n : nat) (c : Z) (v : list Z) : list Z :=
  vec n (fun i => c * nth i v 0).

Definition vzero (n : nat) : list Z := vec n (fun _ => 0).

Definition vone (n : nat) : list Z :=
  vec n (fun i => if (S i =? n)%nat then 1 else 0).

(** Multiplication by [x] modulo [x^n + 1]: the leading coefficient wraps
    around with its sign changed. *)
Definition shift (n : nat) (v : list Z) : list Z :=
  vec n (fun i => if (S i =? n)%nat then - nth 0 v 0 else nth (S i) v 0).

Definition shiftk (n k : nat) (v : list Z) : list Z := Nat.iter k (shift n) v.

(** The action of a polynomial on a vector: [act n p r] is [p * r] modulo
    [x^n + 1]. *)
Fixpoint act (n : nat) (p : list Z) (r : list Z) : list Z :=
  match p with
  | [] => vzero n
  | c :: p' => vadd n (vscale n c (shiftk n (length p') r)) (act n p' r)
  end.

(** [p] modulo [x^n + 1]. *)
Definition red (n : nat) (p : list Z) : list Z := act n p (vone n).

(** Coefficient-wise congruence modulo [q] of two vectors. *)
Definition vcong (n : nat) (q : Z) (u v : list Z) : Prop :=
  forall i, (i < n)%nat -> (q | nth i u 0 - nth i v 0).



(** The bound of the noise assertion, [q / (2 * t) - (q mod t) / 2]. *)
Definition threshold (q t : Z) : Q :=
  (inject_Z q / inject_Z (2 * t) - Py.fdiv (inject_Z (q mod t)) 2)%Q.

(** [below b l]: every coefficient of [l] is below [b] in absolute value,
    the comparison [abs(coeff) < b] of the noise assertion. *)
Definition below (b : Q) (l : list Z) : Prop :=
  forall c, In c l -> (inject_Z (Z.abs c) < b)%Q.



(** Membership in [R_m]: [n] coefficients, each its own centered
    remainder modulo [m]. *)
Definition in_ring (n : nat) (m : Z) (p : Polynomial) : Prop :=
  length (coefficients p) = n /\
  forall c, In c (coefficients p) -> - m < 2 * c <= m.

(** [p] reduced into [Z_m[x]/(x^n+1)] with centered coefficients. *)
Definition ring_reduce (n : nat) (m : Z) (p : list Z) : list Z :=
  map (centered m) (red n p).



(** Coefficients in [{-1, 0, 1}]. *)
Definition ternary (l : list Z) : Prop :=
  forall c, In c l -> c = -1 \/ c = 0 \/ c = 1.

(** Concrete runs of the scheme with the schoolbook product, on rings of
    degree 2. *)
Module Example.

Definition gaussian : DiscreteGaussian := mkDiscreteGaussian (32 # 10).

Definition P (coefficients : list Z) : Polynomial := mkPolynomial coefficients.

(** The state of the generator behind each draw of [a]. *)
Definition draws (l : list Z) (i : nat) : Z := nth i l 0.

Definition ring2 (modulus : Z) : PolynomialRing :=
mkPolynomialRing [1; 0; 1] modulus 2.

Definition rlwe (q t : Z) : RLWE := mkRLWE 2 (ring2 q) (ring2 t) gaussian.

End Example.

(* ------------------------------------------------------------------ *)
(** ** Lists, loops and the runtime *)

Lemma length_zeros k : length (zeros k) = k.
Proof. apply repeat_length. Qed.

Lemma length_replicate (x : Z) k : length (Py.replicate x k) = Z.to_nat k.
Proof. apply repeat_length. Qed.

Lemma replicate_zeros k : Py.replicate 0 k = zeros (Z.to_nat k).
Proof. reflexivity. Qed.

Lemma nth_zeros i k : nth i (zeros k) 0 = 0.
Proof.
  unfold zeros. revert i. induction k; intros [|i]; simpl; auto.
Qed.

Lemma length_set_nth {A} (l : list A) i v : length (Py.set_nth l i v) = length l.
Proof.
  revert i. induction l as [|h t IH]; intros [|i]; simpl; auto.
Qed.

Lemma set_nth_app_r {A} (pre l : list A) i v :
  Py.set_nth (pre ++ l) (length pre + i) v = pre ++ Py.set_nth l i v.
Proof.
  induction pre as [|h t IH]; simpl; [reflexivity | now rewrite IH].
Qed.

Lemma getitem_app_r {A} (pre l : list A) i :
  Py.getitem (pre ++ l) (length pre + i) = Py.getitem l i.
Proof.
  unfold Py.getitem. rewrite nth_error_app2 by lia.
  replace (length pre + i - length pre)%nat with i by lia. reflexivity.
Qed.

Lemma setitem_app_r {A} (pre l : list A) i v :
  (i < length l)%nat ->
  Py.setitem (pre ++ l) (length pre + i) v = Ok (pre ++ Py.set_nth l i v).
Proof.
  intros Hi. unfold Py.setitem.
  destruct (Nat.ltb_spec (length pre + i) (length (pre ++ l))) as [_|H].
  - now rewrite set_nth_app_r.
  - rewrite length_app in H. lia.
Qed.

Lemma mapM_pure {A B} (f : A -> result B) (g : A -> B) (l : list A) :
  (forall x, In x l -> f x = Ok (g x)) -> Py.mapM f l = Ok (map g l).
Proof.
  induction l as [|x t IH]; simpl; intros H; [reflexivity|].
  rewrite (H x) by auto. simpl. rewrite IH by auto. reflexivity.
Qed.

Lemma mapM_length {A B} (f : A -> result B) (l : list A) (r : list B) :
  Py.mapM f l = Ok r -> length r = length l.
Proof.
  revert r. induction l as [|x t IH]; simpl; intros r H.
  - now inversion H.
  - destruct (f x); simpl in H; [|discriminate].
    destruct (Py.mapM f t); simpl in H; [|discriminate].
    inversion H; subst. simpl. f_equal. now apply IH.
Qed.

Lemma mapM_Forall2 {A B} (f : A -> result B) (l : list A) (r : list B) :
  Py.mapM f l = Ok r -> Forall2 (fun x y => f x = Ok y) l r.
Proof.
  revert r. induction l as [|x t IH]; simpl; intros r H.
  - inversion H. constructor.
  - destruct (f x) eqn:Hx; simpl in H; [|discriminate].
    destruct (Py.mapM f t); simpl in H; [|discriminate].
    inversion H; subst. constructor; auto.
Qed.

Lemma mapM_raises {A B} (f : A -> result B) (l : list A) e :
  Py.mapM f l = Raise e -> exists x, In x l /\ f x = Raise e.
Proof.
  induction l as [|x t IH]; simpl; intros H; [discriminate|].
  destruct (f x) eqn:Hx; simpl in H.
  - destruct (Py.mapM f t); simpl in H; [discriminate|].
    inversion H; subst. destruct IH as [y [Hy Hf]]; eauto.
  - inversion H; subst. eauto.
Qed.

(** Stripping leading zeros. *)
Lemma strip_split l :
  exists k, l = zeros k ++ Py.strip_leading_zeros l.
Proof.
  induction l as [|x t [k IH]]; simpl.
  - exists 0%nat. reflexivity.
  - destruct (Z.eqb_spec x 0) as [->|Hx].
    + exists (S k). change (zeros (S k)) with (0 :: zeros k). simpl. now f_equal.
    + exists 0%nat. reflexivity.
Qed.

Lemma strip_length l : (length (Py.strip_leading_zeros l) <= length l)%nat.
Proof.
  destruct (strip_split l) as [k Hk]. rewrite Hk at 2.
  rewrite length_app. lia.
Qed.

Lemma strip_zeros_app k l :
  Py.strip_leading_zeros (zeros k ++ l) = Py.strip_leading_zeros l.
Proof. induction k; simpl; auto. Qed.

Lemma zeros_add a b : zeros a ++ zeros b = zeros (a + b).
Proof. unfold zeros. now rewrite repeat_app. Qed.

Lemma pad_length m l : (length l <= m)%nat -> length (pad m l) = m.
Proof. intros H. unfold pad. rewrite length_app, length_zeros. lia. Qed.

Lemma pad_full l : pad (length l) l = l.
Proof. unfold pad. now rewrite Nat.sub_diag. Qed.

Lemma pad_zeros_app m k l :
  (k + length l <= m)%nat -> pad m (zeros k ++ l) = pad m l.
Proof.
  intros H. unfold pad. rewrite length_app, length_zeros, app_assoc, zeros_add.
  do 2 f_equal. lia.
Qed.

Lemma pad_strip m l :
  (length l <= m)%nat -> pad m (Py.strip_leading_zeros l) = pad m l.
Proof.
  intros H. destruct (strip_split l) as [k Hk].
  rewrite Hk at 2. rewrite pad_zeros_app; [reflexivity|].
  rewrite Hk, length_app, length_zeros in H. lia.
Qed.

(** [zip_add], [axpy], [scale] *)
Lemma length_zip_add a b : length (zip_add a b) = Nat.min (length a) (length b).
Proof.
  revert b. induction a as [|x a IH]; intros [|y b]; simpl; auto.
Qed.

Lemma zip_add_zeros_l k b : length b = k -> zip_add (zeros k) b = b.
Proof.
  revert b. induction k; intros [|y b]; simpl; intros H; try discriminate; auto.
  f_equal. apply IHk. lia.
Qed.

Lemma zip_add_zeros_r k a : length a = k -> zip_add a (zeros k) = a.
Proof.
  revert a. induction k; intros [|y b]; simpl; intros H; try discriminate; auto.
  rewrite Z.add_0_r. f_equal. apply IHk. lia.
Qed.

Lemma zip_add_assoc a b c : zip_add (zip_add a b) c = zip_add a (zip_add b c).
Proof.
  revert b c. induction a as [|x a IH]; intros [|y b] [|z c]; simpl; auto.
  now rewrite IH, Z.add_assoc.
Qed.

Lemma length_axpy c d r : length (axpy c d r) = length r.
Proof.
  revert d. induction r as [|x r IH]; intros [|y d]; simpl; auto.
Qed.

Lemma axpy_zeros c d k :
  (length d <= k)%nat -> axpy c d (zeros k) = scale c d ++ zeros (k - length d).
Proof.
  revert k. induction d as [|y d IH]; intros k H; simpl.
  - rewrite Nat.sub_0_r. destruct k; reflexivity.
  - destruct k as [|k]; simpl in *; [lia|]. rewrite IH by lia. reflexivity.
Qed.

Lemma length_scale c l : length (scale c l) = length l.
Proof. apply length_map. Qed.

(** [x - y * c] of the division loop is [axpy (- c)]. *)
Lemma axpy_nil c r : axpy c [] r = r.
Proof. destruct r; reflexivity. Qed.

Lemma zip_add_axpy c d r :
  (length d <= length r)%nat ->
  zip_add (scale c d ++ zeros (length r - length d)) (axpy (- c) d r) = r.
Proof.
  revert r. induction d as [|y d IH]; intros r H.
  - rewrite axpy_nil. simpl. rewrite Nat.sub_0_r. now apply zip_add_zeros_l.
  - destruct r as [|x r]; simpl in *; [lia|].
    f_equal; [ring|]. apply IH. lia.
Qed.

(* ------------------------------------------------------------------ *)
(** ** The index loops of polynomial.py as structural recursions *)

Lemma map_nth_seq_zip u v k :
  length u = k -> length v = k ->
  map (fun i => nth i u 0 + nth i v 0) (seq 0 k) = zip_add u v.
Proof.
  revert v k. induction u as [|x u IH]; intros [|y v] k Hu Hv; simpl in *; subst;
    try discriminate; try reflexivity.
  simpl. f_equal. rewrite <- seq_shift, map_map. simpl. apply IH; lia.
Qed.

Lemma poly_add_spec a b :
  poly_add a b =
  zip_add (pad (Nat.max (length a) (length b)) a) (pad (Nat.max (length a) (length b)) b).
Proof.
  unfold poly_add, Py.len, pad. rewrite !replicate_zeros.
  replace (Z.to_nat (Z.max (Z.of_nat (length a)) (Z.of_nat (length b))))
    with (Nat.max (length a) (length b)) by lia.
  replace (Z.to_nat (Z.max (Z.of_nat (length a)) (Z.of_nat (length b)) - Z.of_nat (length a)))
    with (Nat.max (length a) (length b) - length a)%nat by lia.
  replace (Z.to_nat (Z.max (Z.of_nat (length a)) (Z.of_nat (length b)) - Z.of_nat (length b)))
    with (Nat.max (length a) (length b) - length b)%nat by lia.
  apply map_nth_seq_zip; rewrite length_app, length_zeros; lia.
Qed.

Lemma poly_add_same_length a b :
  length a = length b -> poly_add a b = zip_add a b.
Proof.
  intros H. rewrite poly_add_spec, <- H, Nat.max_id.
  rewrite pad_full. rewrite H at 1. now rewrite pad_full.
Qed.

Lemma poly_add_length a b :
  length (poly_add a b) = Nat.max (length a) (length b).
Proof.
  rewrite poly_add_spec, length_zip_add, !pad_length by lia. lia.
Qed.

(** [poly_mul_naive] *)
Lemma length_add_at P k x : length (add_at P k x) = length P.
Proof. apply length_set_nth. Qed.

Lemma length_mul_row a b P i : length (mul_row a b P i) = length P.
Proof.
  unfold mul_row. generalize (seq 0 (length b)). intros l. revert P.
  induction l as [|j l IH]; intros P; simpl; [reflexivity|].
  now rewrite IH, length_add_at.
Qed.

Lemma poly_mul_naive_length a b :
  length (poly_mul_naive a b) = (length a + length b - 1)%nat.
Proof.
  unfold poly_mul_naive, Py.len.
  generalize (seq 0 (length a)). intros l.
  assert (H : length (Py.replicate 0 (Z.of_nat (length a) + Z.of_nat (length b) - 1))
              = (length a + length b - 1)%nat) by (rewrite length_replicate; lia).
  revert H. generalize (Py.replicate 0 (Z.of_nat (length a) + Z.of_nat (length b) - 1)).
  induction l as [|i l IH]; intros P HP; simpl; [exact HP|].
  apply IH. now rewrite length_mul_row.
Qed.

Lemma add_at_zip_add T U k x : add_at (zip_add T U) k x = zip_add T (add_at U k x).
Proof.
  unfold add_at. revert U k.
  induction T as [|t T IH]; intros [|u U] [|k]; simpl; try reflexivity.
  - f_equal. ring.
  - f_equal. apply IH.
Qed.

Lemma mul_row_zip_add a b T U i :
  mul_row a b (zip_add T U) i = zip_add T (mul_row a b U i).
Proof.
  unfold mul_row. generalize (seq 0 (length b)). intros l. revert U.
  induction l as [|j l IH]; intros U; simpl; [reflexivity|].
  now rewrite add_at_zip_add, IH.
Qed.

Lemma mul_rows_zip_add a b l T U :
  fold_left (mul_row a b) l (zip_add T U) = zip_add T (fold_left (mul_row a b) l U).
Proof.
  revert U. induction l as [|i l IH]; intros U; simpl; [reflexivity|].
  now rewrite mul_row_zip_add, IH.
Qed.

Lemma mul_row_cons a0 a' b h T i :
  mul_row (a0 :: a') b (h :: T) (S i) = h :: mul_row a' b T i.
Proof.
  unfold mul_row. generalize (seq 0 (length b)). intros l. revert T.
  induction l as [|j l IH]; intros T; simpl; [reflexivity|].
  apply IH.
Qed.

Lemma mul_rows_cons a0 a' b l h T :
  fold_left (mul_row (a0 :: a') b) (map S l) (h :: T)
  = h :: fold_left (mul_row a' b) l T.
Proof.
  revert T. induction l as [|i l IH]; intros T; simpl; [reflexivity|].
  now rewrite mul_row_cons, IH.
Qed.

Lemma mul_row_first_gen a0 a' bs : forall bpre pre rest,
  length pre = length bpre -> (length bs <= length rest)%nat ->
  fold_left (fun P j => add_at P (0 + j) (nth 0 (a0 :: a') 0 * nth j (bpre ++ bs) 0))
            (seq (length bpre) (length bs)) (pre ++ rest)
  = pre ++ axpy a0 bs rest.
Proof.
  induction bs as [|y bs IH]; intros bpre pre rest Hpre Hlen.
  - now rewrite axpy_nil.
  - destruct rest as [|x rest]; simpl in Hlen; [lia|].
    simpl. unfold add_at at 2. rewrite <- Hpre.
    replace (length pre) with (length pre + 0)%nat at 2 by lia.
    rewrite set_nth_app_r. simpl.
    rewrite app_nth2 by lia. rewrite Nat.sub_diag. simpl.
    rewrite Hpre, app_nth2 by lia. rewrite Nat.sub_diag. simpl.
    specialize (IH (bpre ++ [y]) (pre ++ [x + a0 * y]) rest).
    rewrite <- !app_assoc in IH. simpl in IH.
    rewrite !length_app in IH. simpl in IH.
    rewrite <- Hpre. rewrite <- Hpre in IH. rewrite !Nat.add_1_r in IH.
    apply IH; lia.
Qed.

Lemma mul_row_first a0 a' b P :
  (length b <= length P)%nat -> mul_row (a0 :: a') b P 0 = axpy a0 b P.
Proof.
  intros H. unfold mul_row.
  exact (mul_row_first_gen a0 a' b [] [] P eq_refl H).
Qed.

Lemma poly_mul_naive_nil_l b : poly_mul_naive [] b = zeros (length b - 1).
Proof.
  unfold poly_mul_naive, Py.len. simpl. rewrite replicate_zeros. f_equal. lia.
Qed.

Lemma poly_mul_naive_nil_r a : poly_mul_naive a [] = zeros (length a - 1).
Proof.
  unfold poly_mul_naive, Py.len. simpl. rewrite replicate_zeros.
  replace (Z.to_nat (Z.of_nat (length a) + 0 - 1)) with (length a - 1)%nat by lia.
  generalize (zeros (length a - 1)). generalize (seq 0 (length a)).
  induction l as [|i l IH]; intros P; simpl; auto.
Qed.

(** The first row of the product and the rows below it. *)
Lemma poly_mul_naive_cons a0 a' b0 bt :
  poly_mul_naive (a0 :: a') (b0 :: bt)
  = (a0 * b0) :: zip_add (scale a0 bt ++ zeros (length a'))
                         (poly_mul_naive a' (b0 :: bt)).
Proof.
  unfold poly_mul_naive at 1. unfold Py.len. rewrite replicate_zeros.
  replace (Z.to_nat (Z.of_nat (length (a0 :: a')) + Z.of_nat (length (b0 :: bt)) - 1))
    with (S (length a' + length bt)) by (simpl length; lia).
  change (zeros (S (length a' + length bt))) with (0 :: zeros (length a' + length bt)).
  simpl length. rewrite <- cons_seq. simpl fold_left.
  rewrite mul_row_first by (cbn [length]; rewrite length_zeros; lia).
  simpl axpy. rewrite axpy_zeros by lia.
  rewrite <- seq_shift, mul_rows_cons. f_equal.
  replace (length a' + length bt - length bt)%nat with (length a') by lia.
  rewrite <- (zip_add_zeros_r (length a' + length bt) (scale a0 bt ++ zeros (length a'))) at 1
    by (rewrite length_app, length_scale, length_zeros; lia).
  rewrite mul_rows_zip_add. f_equal.
  unfold poly_mul_naive, Py.len. rewrite replicate_zeros. do 2 f_equal.
  simpl length. lia.
Qed.

(** [poly_div] *)
Lemma for_range_ext {St} lo k (f g : nat -> St -> result St) s :
  (forall i s, f i s = g i s) -> Py.for_range lo k f s = Py.for_range lo k g s.
Proof.
  intros H. revert lo s. induction k as [|k IH]; intros lo s; simpl; [reflexivity|].
  rewrite H. destruct (g lo s); simpl; auto.
Qed.

Lemma getitem_app_hd {A} (pre : list A) x l :
  Py.getitem (pre ++ x :: l) (length pre) = Ok x.
Proof.
  rewrite <- (Nat.add_0_r (length pre)) at 1. now rewrite getitem_app_r.
Qed.

Lemma setitem_app_hd {A} (pre : list A) x l v :
  Py.setitem (pre ++ x :: l) (length pre) v = Ok (pre ++ v :: l).
Proof.
  rewrite <- (Nat.add_0_r (length pre)) at 1.
  now rewrite setitem_app_r by (simpl; lia).
Qed.

Lemma poly_div_inner_gen c i ds : forall dpre pre r,
  length pre = (i + length dpre)%nat -> (length ds <= length r)%nat ->
  Py.for_range (length dpre) (length ds)
    (fun j remainder =>
       rem <- Py.getitem remainder (i + j) ;;
       dj <- Py.getitem (dpre ++ ds) j ;;
       Py.setitem remainder (i + j) (rem - dj * c))
    (pre ++ r)
  = Ok (pre ++ axpy (- c) ds r).
Proof.
  induction ds as [|y ds IH]; intros dpre pre r Hpre Hlen.
  - now rewrite axpy_nil.
  - destruct r as [|x r]; simpl in Hlen; [lia|].
    cbn [length Py.for_range axpy].
    rewrite <- Hpre, !getitem_app_hd. cbn [bind].
    rewrite setitem_app_hd. cbn [bind].
    replace (x - y * c) with (x + - c * y) by ring.
    specialize (IH (dpre ++ [y]) (pre ++ [x + - c * y]) r).
    rewrite <- !app_assoc in IH. cbn [app] in IH.
    rewrite !length_app in IH. cbn [length] in IH.
    rewrite !Nat.add_1_r in IH.
    apply IH; lia.
Qed.

Lemma poly_div_inner_spec d i c pre r :
  length pre = i -> (length d <= length r)%nat ->
  poly_div_inner d i c (pre ++ r) = Ok (pre ++ axpy (- c) d r).
Proof.
  intros Hpre Hlen. unfold poly_div_inner.
  apply (poly_div_inner_gen c i d [] pre r); simpl; lia.
Qed.

Lemma poly_div_loop d0 dt : d0 <> 0 -> forall k qpre rpre r,
  length qpre = length rpre -> (k + length dt <= length r)%nat ->
  Py.for_range (length qpre) k (poly_div_step (d0 :: dt)) (qpre ++ zeros k, rpre ++ r)
  = Ok (qpre ++ fst (div_steps k r (d0 :: dt)), rpre ++ snd (div_steps k r (d0 :: dt))).
Proof.
  intros Hd0. induction k as [|k IH]; intros qpre rpre r Hpre Hlen.
  - reflexivity.
  - destruct r as [|x r]; simpl in Hlen; [lia|].
    change (zeros (S k)) with (0 :: zeros k).
    cbn [Py.for_range poly_div_step].
    rewrite Hpre at 1. rewrite getitem_app_hd. cbn [Py.getitem nth_error bind].
    unfold Py.floordiv. destruct (Z.eqb_spec d0 0) as [|_]; [contradiction|].
    cbn [bind]. rewrite setitem_app_hd. cbn [bind].
    rewrite poly_div_inner_spec by (simpl; lia).
    cbn [bind axpy div_steps hd].
    specialize (IH (qpre ++ [x / d0]) (rpre ++ [x + - (x / d0) * d0]) (axpy (- (x / d0)) dt r)).
    rewrite <- !app_assoc in IH. cbn [app] in IH.
    rewrite !length_app in IH. cbn [length] in IH.
    rewrite !Nat.add_1_r in IH.
    rewrite IH by (rewrite ?length_axpy; lia).
    destruct (div_steps k (axpy (- (x / d0)) dt r) (d0 :: dt)) as [q rem].
    reflexivity.
Qed.

Lemma poly_div_spec dividend d0 dt :
  d0 <> 0 -> (length dt <= length dividend)%nat ->
  let k := (length dividend - length dt)%nat in
  poly_div dividend (d0 :: dt)
  = Ok (fst (div_steps k dividend (d0 :: dt)),
        Py.strip_leading_zeros (snd (div_steps k dividend (d0 :: dt)))).
Proof.
  intros Hd0 Hlen k. unfold poly_div, Py.len. rewrite replicate_zeros, length_zeros.
  replace (Z.to_nat (Z.of_nat (length dividend) - Z.of_nat (length (d0 :: dt)) + 1))
    with k by (simpl length; lia).
  pose proof (poly_div_loop d0 dt Hd0 k [] [] dividend eq_refl ltac:(lia)) as Hloop.
  cbn [length app] in Hloop. rewrite Hloop. reflexivity.
Qed.

(** A dividend shorter than the divisor is its own remainder. *)
Lemma poly_div_short dividend divisor :
  (length dividend < length divisor)%nat ->
  poly_div dividend divisor = Ok ([], Py.strip_leading_zeros dividend).
Proof.
  intros H. unfold poly_div, Py.len.
  replace (Py.replicate 0 (Z.of_nat (length dividend) - Z.of_nat (length divisor) + 1))
    with (@nil Z); [reflexivity|].
  unfold Py.replicate.
  replace (Z.to_nat (Z.of_nat (length dividend) - Z.of_nat (length divisor) + 1))
    with 0%nat by lia.
  reflexivity.
Qed.

Lemma div_steps_length k : forall r d0 dt,
  (k + length dt <= length r)%nat ->
  length (fst (div_steps k r (d0 :: dt))) = k /\
  length (snd (div_steps k r (d0 :: dt))) = length r.
Proof.
  induction k as [|k IH]; intros r d0 dt H; [now split|].
  destruct r as [|x r]; simpl in H; [lia|].
  cbn [div_steps hd axpy].
  specialize (IH (axpy (- (x / d0)) dt r) d0 dt).
  rewrite length_axpy in IH.
  destruct (div_steps k (axpy (- (x / d0)) dt r) (d0 :: dt)) as [q rem].
  simpl in *. destruct IH; [lia|]. split; lia.
Qed.

(** The division identity, digit by digit. *)
Lemma div_steps_identity k : forall r d0 dt,
  length r = (k + length dt)%nat ->
  zip_add (poly_mul_naive (fst (div_steps k r (d0 :: dt))) (d0 :: dt))
          (snd (div_steps k r (d0 :: dt))) = r.
Proof.
  induction k as [|k IH]; intros r d0 dt H.
  - cbn [div_steps fst snd]. rewrite poly_mul_naive_nil_l.
    replace (length (d0 :: dt) - 1)%nat with (length dt) by (simpl; lia).
    apply zip_add_zeros_l. lia.
  - destruct r as [|x r]; simpl in H; [lia|].
    cbn [div_steps hd axpy].
    pose proof (div_steps_length k (axpy (- (x / d0)) dt r) d0 dt) as Hl.
    specialize (IH (axpy (- (x / d0)) dt r) d0 dt).
    rewrite length_axpy in IH, Hl.
    destruct (div_steps k (axpy (- (x / d0)) dt r) (d0 :: dt)) as [q rem].
    cbn [fst snd] in *. destruct Hl as [Hq Hrem]; [lia|].
    rewrite poly_mul_naive_cons. cbn [zip_add]. f_equal; [ring|].
    rewrite zip_add_assoc, IH by lia.
    rewrite Hq. replace k with (length r - length dt)%nat by lia.
    apply zip_add_axpy. lia.
Qed.

(** With a monic divisor every step clears the leading coefficient. *)
Lemma div_steps_monic k : forall r dt,
  (k + length dt <= length r)%nat ->
  exists r', snd (div_steps k r (1 :: dt)) = zeros k ++ r' /\
             length r' = (length r - k)%nat.
Proof.
  induction k as [|k IH]; intros r dt H.
  - exists r. split; [reflexivity | simpl; lia].
  - destruct r as [|x r]; simpl in H; [lia|].
    cbn [div_steps hd axpy].
    destruct (IH (axpy (- (x / 1)) dt r) dt) as [r' [Hr' Hlen]];
      [rewrite length_axpy; lia|].
    destruct (div_steps k (axpy (- (x / 1)) dt r) (1 :: dt)) as [q rem].
    cbn [snd] in *. exists r'. split.
    + rewrite Hr'. change (zeros (S k)) with (0 :: zeros k).
      rewrite Z.div_1_r. simpl. f_equal. ring.
    + rewrite Hlen, length_axpy. simpl. lia.
Qed.

Lemma pad_pad m k l :
  (length l <= k)%nat -> (k <= m)%nat -> pad m (pad k l) = pad m l.
Proof.
  intros H1 H2. unfold pad at 2. apply pad_zeros_app. lia.
Qed.

Lemma poly_add_strip_r P R :
  (length R <= length P)%nat ->
  poly_add P (Py.strip_leading_zeros R) = poly_add P R.
Proof.
  intros H. rewrite !poly_add_spec.
  pose proof (strip_length R).
  replace (Nat.max (length P) (length (Py.strip_leading_zeros R))) with (length P) by lia.
  replace (Nat.max (length P) (length R)) with (length P) by lia.
  now rewrite pad_strip.
Qed.

Lemma poly_add_pad_r P k R :
  (length R <= k)%nat -> (k <= length P)%nat ->
  poly_add P (pad k R) = poly_add P R.
Proof.
  intros H1 H2. rewrite !poly_add_spec, pad_length by lia.
  replace (Nat.max (length P) k) with (length P) by lia.
  replace (Nat.max (length P) (length R)) with (length P) by lia.
  now rewrite pad_pad.
Qed.

(** Division by a monic divisor: the outcome of [poly_div], the identity
    [dividend = quotient * divisor + remainder] and the size of the
    remainder. *)
Lemma poly_div_monic_spec dividend dt :
  (length dt <= length dividend)%nat ->
  exists quotient remainder,
    poly_div dividend (1 :: dt) = Ok (quotient, remainder) /\
    length quotient = (length dividend - length dt)%nat /\
    poly_add (poly_mul_naive quotient (1 :: dt)) remainder = dividend /\
    (length remainder <= length dt)%nat /\
    pad (length dt) remainder
    = skipn (length dividend - length dt)
            (snd (div_steps (length dividend - length dt) dividend (1 :: dt))).
Proof.
  intros H. set (k := (length dividend - length dt)%nat).
  exists (fst (div_steps k dividend (1 :: dt))),
         (Py.strip_leading_zeros (snd (div_steps k dividend (1 :: dt)))).
  pose proof (div_steps_length k dividend 1 dt ltac:(lia)) as [Hq Hrem].
  pose proof (div_steps_identity k dividend 1 dt ltac:(lia)) as Hid.
  destruct (div_steps_monic k dividend dt ltac:(lia)) as [r' [Hr' Hlen]].
  split; [apply poly_div_spec; [lia | exact H]|].
  split; [exact Hq|].
  assert (HP : length (poly_mul_naive (fst (div_steps k dividend (1 :: dt))) (1 :: dt))
               = length dividend).
  { rewrite poly_mul_naive_length, Hq. simpl length. lia. }
  split.
  - rewrite poly_add_strip_r by lia.
    rewrite poly_add_same_length by lia. exact Hid.
  - rewrite Hr', strip_zeros_app. split.
    + pose proof (strip_length r'). lia.
    + rewrite pad_strip by lia.
      rewrite skipn_app, length_zeros, Nat.sub_diag. simpl skipn at 2.
      rewrite skipn_all2 by (rewrite length_zeros; lia). simpl.
      replace (length dt) with (length r') by lia. apply pad_full.
Qed.

(* ------------------------------------------------------------------ *)
(** ** The module Z^n = Z[x]/(x^n+1) *)

Lemma length_vec n f : length (vec n f) = n.
Proof. unfold vec. now rewrite length_map, length_seq. Qed.

Lemma nth_vec n f i : (i < n)%nat -> nth i (vec n f) 0 = f i.
Proof.
  intros H. unfold vec.
  rewrite nth_indep with (d' := f 0%nat) by (rewrite length_map, length_seq; lia).
  rewrite map_nth, seq_nth by lia. reflexivity.
Qed.

Lemma vec_ext n f g : (forall i, (i < n)%nat -> f i = g i) -> vec n f = vec n g.
Proof.
  intros H. unfold vec. apply map_ext_in. intros i Hi.
  apply in_seq in Hi. apply H. lia.
Qed.

Lemma vec_eta n v : length v = n -> vec n (fun i => nth i v 0) = v.
Proof.
  intros H. apply nth_ext with (d := 0) (d' := 0).
  - now rewrite length_vec.
  - intros i Hi. rewrite length_vec in Hi. now rewrite nth_vec.
Qed.

Lemma list_eq_nth n (u v : list Z) :
  length u = n -> length v = n ->
  (forall i, (i < n)%nat -> nth i u 0 = nth i v 0) -> u = v.
Proof.
  intros Hu Hv H. apply nth_ext with (d := 0) (d' := 0); [congruence|].
  intros i Hi. apply H. lia.
Qed.

Ltac vcrush :=
  repeat match goal with
         | |- context [nth ?i (vec ?n ?f) 0] => rewrite (nth_vec n f i) by lia
         | |- context [(?a =? ?b)%nat] => destruct (Nat.eqb_spec a b)
         end;
  cbv beta; try lia; try ring.

Ltac vec_eq :=
  unfold vadd, vscale, vzero, vone, shift;
  apply vec_ext; intros ? ?; cbv beta; vcrush.

Lemma length_vadd n u v : length (vadd n u v) = n.
Proof. apply length_vec. Qed.


Lemma length_vzero n : length (vzero n) = n.
Proof. apply length_vec. Qed.

Lemma length_vone n : length (vone n) = n.
Proof. apply length_vec. Qed.

Lemma length_shift n v : length (shift n v) = n.
Proof. apply length_vec. Qed.

Lemma length_shiftk n k v : length v = n -> length (shiftk n k v) = n.
Proof.
  intros H. unfold shiftk. induction k; simpl; [exact H | apply length_shift].
Qed.

Lemma length_act n p r : length (act n p r) = n.
Proof. destruct p; simpl; [apply length_vzero | apply length_vadd]. Qed.

Lemma vzero_zeros n : vzero n = zeros n.
Proof.
  apply (list_eq_nth n); [apply length_vzero | apply length_zeros |].
  intros i Hi. unfold vzero. now rewrite nth_vec, nth_zeros.
Qed.

Lemma vadd_comm n u v : vadd n u v = vadd n v u.
Proof. vec_eq. Qed.

Lemma vadd_assoc n u v w : vadd n (vadd n u v) w = vadd n u (vadd n v w).
Proof. vec_eq. Qed.

Lemma vadd_zero_l n v : length v = n -> vadd n (vzero n) v = v.
Proof.
  intros H. rewrite <- (vec_eta n v H) at 2. vec_eq.
Qed.

Lemma vadd_zero_r n v : length v = n -> vadd n v (vzero n) = v.
Proof. intros H. rewrite vadd_comm. now apply vadd_zero_l. Qed.

Lemma vscale_zero_l n v : vscale n 0 v = vzero n.
Proof. vec_eq. Qed.

Lemma vscale_zero_r n c : vscale n c (vzero n) = vzero n.
Proof. vec_eq. Qed.

Lemma vscale_one n v : length v = n -> vscale n 1 v = v.
Proof.
  intros H. rewrite <- (vec_eta n v H) at 2. unfold vscale. apply vec_ext.
  intros. ring.
Qed.

Lemma vscale_vadd n c u v :
  vscale n c (vadd n u v) = vadd n (vscale n c u) (vscale n c v).
Proof. vec_eq. Qed.

Lemma vscale_add n c d v :
  vscale n (c + d) v = vadd n (vscale n c v) (vscale n d v).
Proof. vec_eq. Qed.

Lemma vscale_vscale n c d v : vscale n c (vscale n d v) = vscale n (c * d) v.
Proof. vec_eq. Qed.

Lemma vadd_opp n v : vadd n v (vscale n (-1) v) = vzero n.
Proof. vec_eq. Qed.

Lemma vadd_swap n a b c d :
  vadd n (vadd n a b) (vadd n c d) = vadd n (vadd n a c) (vadd n b d).
Proof. vec_eq. Qed.

Lemma shift_vadd n u v : shift n (vadd n u v) = vadd n (shift n u) (shift n v).
Proof. vec_eq. Qed.

Lemma shift_vscale n c v : shift n (vscale n c v) = vscale n c (shift n v).
Proof. vec_eq. Qed.

Lemma shift_vzero n : shift n (vzero n) = vzero n.
Proof. vec_eq. Qed.

Lemma shiftk_succ n k v : shiftk n (S k) v = shift n (shiftk n k v).
Proof. reflexivity. Qed.

Lemma shiftk_succ_r n k v : shiftk n (S k) v = shiftk n k (shift n v).
Proof. unfold shiftk. apply Nat.iter_succ_r. Qed.

Lemma shiftk_add n j k v : shiftk n (j + k) v = shiftk n j (shiftk n k v).
Proof. unfold shiftk. apply Nat.iter_add. Qed.

Lemma shiftk_vadd n k u v :
  shiftk n k (vadd n u v) = vadd n (shiftk n k u) (shiftk n k v).
Proof.
  induction k; [reflexivity|]. now rewrite !shiftk_succ, IHk, shift_vadd.
Qed.

Lemma shiftk_vscale n k c v : shiftk n k (vscale n c v) = vscale n c (shiftk n k v).
Proof.
  induction k; [reflexivity|]. now rewrite !shiftk_succ, IHk, shift_vscale.
Qed.

Lemma shiftk_vzero n k : shiftk n k (vzero n) = vzero n.
Proof.
  induction k; [reflexivity|]. now rewrite shiftk_succ, IHk, shift_vzero.
Qed.

Lemma shiftk_comm n j k v : shiftk n j (shiftk n k v) = shiftk n k (shiftk n j v).
Proof. now rewrite <- !shiftk_add, Nat.add_comm. Qed.

(** [x^k * v] for [k <= n], coefficient by coefficient. *)
Lemma nth_shiftk n k : forall v i,
  (k <= n)%nat -> (i < n)%nat ->
  nth i (shiftk n k v) 0
  = if (i + k <? n)%nat then nth (i + k) v 0 else - nth (i + k - n) v 0.
Proof.
  induction k as [|k IH]; intros v i Hk Hi.
  - simpl. rewrite Nat.add_0_r. destruct (Nat.ltb_spec i n); [reflexivity | lia].
  - rewrite shiftk_succ_r, IH by lia. unfold shift.
    destruct (Nat.ltb_spec (i + k) n), (Nat.ltb_spec (i + S k) n); vcrush;
      try (f_equal; f_equal; lia).
Qed.

(** [act] is linear in the vector and commutes with the shift. *)
Lemma act_vzero n p : act n p (vzero n) = vzero n.
Proof.
  induction p as [|c p IH]; simpl; [reflexivity|].
  rewrite IH, shiftk_vzero, vscale_zero_r. vec_eq.
Qed.

Lemma act_vadd n p r r' : act n p (vadd n r r') = vadd n (act n p r) (act n p r').
Proof.
  induction p as [|c p IH]; simpl; [vec_eq|].
  now rewrite IH, shiftk_vadd, vscale_vadd, vadd_swap.
Qed.

Lemma act_vscale n p c r : act n p (vscale n c r) = vscale n c (act n p r).
Proof.
  induction p as [|a p IH]; simpl; [vec_eq|].
  rewrite IH, shiftk_vscale, vscale_vadd, !vscale_vscale.
  now rewrite (Z.mul_comm a c).
Qed.

Lemma act_shift n p r : act n p (shift n r) = shift n (act n p r).
Proof.
  induction p as [|a p IH]; simpl; [vec_eq|].
  now rewrite IH, shift_vadd, shift_vscale, <- shiftk_succ_r, shiftk_succ.
Qed.

Lemma act_shiftk n p k r : act n p (shiftk n k r) = shiftk n k (act n p r).
Proof.
  induction k; [reflexivity|]. now rewrite !shiftk_succ, act_shift, IHk.
Qed.

(** Operators given by polynomials commute. *)
Lemma act_comm n a b r : act n a (act n b r) = act n b (act n a r).
Proof.
  induction a as [|c a IH]; simpl.
  - now rewrite act_vzero.
  - now rewrite act_vadd, act_vscale, act_shiftk, IH.
Qed.

(** [act] is a homomorphism from polynomials to operators. *)
Lemma act_cons_zero n p r : act n (0 :: p) r = act n p r.
Proof.
  simpl. rewrite vscale_zero_l. apply vadd_zero_l, length_act.
Qed.

Lemma act_zeros_app n k p r : act n (zeros k ++ p) r = act n p r.
Proof.
  induction k; [reflexivity|].
  change (zeros (S k) ++ p) with (0 :: (zeros k ++ p)).
  now rewrite act_cons_zero.
Qed.

Lemma act_zeros n k r : act n (zeros k) r = vzero n.
Proof.
  rewrite <- (app_nil_r (zeros k)), act_zeros_app. reflexivity.
Qed.

Lemma act_pad n m p r : act n (pad m p) r = act n p r.
Proof. apply act_zeros_app. Qed.

Lemma act_strip n p r : act n (Py.strip_leading_zeros p) r = act n p r.
Proof.
  destruct (strip_split p) as [k Hk]. rewrite Hk at 2. now rewrite act_zeros_app.
Qed.

Lemma act_zip_add n a : forall b r,
  length a = length b -> act n (zip_add a b) r = vadd n (act n a r) (act n b r).
Proof.
  induction a as [|x a IH]; intros [|y b] r H; simpl in H; try discriminate.
  - simpl. vec_eq.
  - simpl. rewrite IH by lia. rewrite length_zip_add.
    replace (Nat.min (length a) (length b)) with (length a) by lia.
    replace (length b) with (length a) by lia.
    rewrite vscale_add. apply vadd_swap.
Qed.

Lemma act_poly_add n a b r : act n (poly_add a b) r = vadd n (act n a r) (act n b r).
Proof.
  rewrite poly_add_spec, act_zip_add, !act_pad; [reflexivity|].
  rewrite !pad_length; lia.
Qed.

Lemma act_app_zeros n p k r : act n (p ++ zeros k) r = shiftk n k (act n p r).
Proof.
  induction p as [|c p IH]; simpl.
  - now rewrite act_zeros, shiftk_vzero.
  - rewrite IH, shiftk_vadd, shiftk_vscale, length_app, length_zeros.
    now rewrite <- shiftk_add, (Nat.add_comm k).
Qed.

Lemma act_scale n c p r : act n (scale c p) r = vscale n c (act n p r).
Proof.
  induction p as [|a p IH]; simpl.
  - now rewrite vscale_zero_r.
  - now rewrite IH, length_scale, vscale_vadd, vscale_vscale.
Qed.

Lemma act_mul n a b r : act n (poly_mul_naive a b) r = act n a (act n b r).
Proof.
  destruct b as [|b0 bt].
  - rewrite poly_mul_naive_nil_r, act_zeros. simpl. now rewrite act_vzero.
  - induction a as [|a0 a IH].
    + rewrite poly_mul_naive_nil_l, act_zeros. reflexivity.
    + rewrite poly_mul_naive_cons. cbn [act].
      rewrite act_zip_add
        by (rewrite length_app, length_scale, length_zeros, poly_mul_naive_length;
            simpl; lia).
      rewrite IH, act_app_zeros, act_scale.
      rewrite length_zip_add, length_app, length_scale, length_zeros,
        poly_mul_naive_length.
      replace (Nat.min (length bt + length a) (length a + length (b0 :: bt) - 1))
        with (length a + length bt)%nat by (simpl; lia).
      rewrite shiftk_add, shiftk_vadd, !shiftk_vscale, vscale_vadd, !vscale_vscale.
      rewrite <- vadd_assoc. reflexivity.
Qed.

(* ------------------------------------------------------------------ *)
(** ** Ring reduction *)

Lemma nth_pad m l i :
  (length l <= m)%nat ->
  nth i (pad m l) 0 = if (i <? m - length l)%nat then 0 else nth (i - (m - length l)) l 0.
Proof.
  intros H. unfold pad. destruct (Nat.ltb_spec i (m - length l)).
  - rewrite app_nth1 by (rewrite length_zeros; lia). apply nth_zeros.
  - rewrite app_nth2 by (rewrite length_zeros; lia). now rewrite length_zeros.
Qed.

(** A polynomial with at most [n] coefficients is its own residue. *)
Lemma red_short n p : (length p <= n)%nat -> red n p = pad n p.
Proof.
  unfold red. induction p as [|c p IH]; intros H.
  - simpl. unfold pad. simpl. rewrite Nat.sub_0_r, app_nil_r. apply vzero_zeros.
  - simpl in H. cbn [act]. rewrite IH by lia.
    apply (list_eq_nth n); [apply length_vadd | apply pad_length; simpl; lia |].
    intros i Hi. unfold vadd, vscale. rewrite !nth_vec by lia.
    rewrite nth_shiftk by lia. rewrite !nth_pad by (simpl; lia).
    cbn [length]. unfold vone.
    destruct (Nat.ltb_spec (i + length p) n).
    + rewrite nth_vec by lia.
      destruct (Nat.eqb_spec (S (i + length p)) n).
      * destruct (Nat.ltb_spec i (n - length p)); [|lia].
        destruct (Nat.ltb_spec i (n - S (length p))); [lia|].
        replace (i - (n - S (length p)))%nat with 0%nat by lia. simpl. ring.
      * destruct (Nat.ltb_spec i (n - length p)); [|lia].
        destruct (Nat.ltb_spec i (n - S (length p))); [ring|lia].
    + rewrite nth_vec by lia.
      destruct (Nat.eqb_spec (S (i + length p - n)) n); [lia|].
      destruct (Nat.ltb_spec i (n - length p)); [lia|].
      destruct (Nat.ltb_spec i (n - S (length p))); [lia|].
      replace (i - (n - S (length p)))%nat with (S (i - (n - length p))) by lia.
      simpl. ring.
Qed.

Lemma red_fixed n p : length p = n -> red n p = p.
Proof.
  intros H. rewrite red_short by lia. rewrite <- H. apply pad_full.
Qed.

Lemma length_red n p : length (red n p) = n.
Proof. apply length_act. Qed.

Lemma length_cyclo n : (1 <= n)%nat -> length (cyclo n) = S n.
Proof.
  intros H. unfold cyclo. simpl. rewrite length_app, length_zeros. simpl. lia.
Qed.

(** [x^n + 1] acts as zero. *)
Lemma act_cyclo n : (1 <= n)%nat -> act n (cyclo n) (vone n) = vzero n.
Proof.
  intros H. unfold cyclo. cbn [app act].
  rewrite act_zeros_app. cbn [act length].
  rewrite length_app, length_zeros. cbn [length].
  replace (n - 1 + 1)%nat with n by lia.
  apply (list_eq_nth n); [apply length_vadd | apply length_vzero |].
  intros i Hi. unfold vadd, vscale, vzero. rewrite !nth_vec by lia.
  rewrite nth_shiftk by lia.
  destruct (Nat.ltb_spec (i + n) n); [lia|].
  replace (i + n - n)%nat with i by lia.
  simpl shiftk. ring.
Qed.

Lemma red_poly_add n a b : red n (poly_add a b) = vadd n (red n a) (red n b).
Proof. apply act_poly_add. Qed.

Lemma red_mul n a b : red n (poly_mul_naive a b) = act n a (red n b).
Proof. apply act_mul. Qed.

Lemma red_strip n p : red n (Py.strip_leading_zeros p) = red n p.
Proof. apply act_strip. Qed.

(** What [Polynomial.reduce_coefficients_by_cyclo] computes. *)
Lemma reduce_coefficients_by_cyclo_spec n p :
  (1 <= n)%nat ->
  reduce_coefficients_by_cyclo (mkPolynomial p) (cyclo n)
  = Ok (mkPolynomial (red n p)).
Proof.
  intros Hn. unfold reduce_coefficients_by_cyclo. cbn [coefficients].
  assert (Hfinish : forall remainder,
             (length remainder <= n)%nat ->
             (let n0 := Py.len (cyclo n) - 1 in
              let remainder0 := Py.replicate 0 (n0 - Py.len remainder) ++ remainder in
              _ <- Py.assert (Py.len remainder0 =? n0) ;;
              Ok (mkPolynomial remainder0))
             = Ok (mkPolynomial (pad n remainder))).
  { intros rem Hrem. cbv zeta. unfold Py.len. rewrite length_cyclo by lia.
    rewrite replicate_zeros.
    replace (Z.to_nat (Z.of_nat (S n) - 1 - Z.of_nat (length rem)))
      with (n - length rem)%nat by lia.
    fold (pad n rem). rewrite pad_length by lia.
    replace (Z.of_nat n =? Z.of_nat (S n) - 1) with true
      by (symmetry; apply Z.eqb_eq; lia).
    reflexivity. }
  destruct (Nat.lt_ge_cases (length p) n) as [Hlt | Hge].
  - rewrite poly_div_short by (rewrite length_cyclo; lia).
    cbn [bind]. pose proof (strip_length p).
    rewrite Hfinish by lia. rewrite pad_strip by lia.
    now rewrite red_short by lia.
  - assert (Hdt : length (zeros (n - 1) ++ [1]) = n)
      by (rewrite length_app, length_zeros; simpl; lia).
    destruct (poly_div_monic_spec p (zeros (n - 1) ++ [1]) ltac:(lia))
      as [quo [rem [Hdiv [_ [Hid [Hrem _]]]]]].
    change (1 :: zeros (n - 1) ++ [1]) with (cyclo n) in Hdiv, Hid.
    rewrite Hdiv. cbn [bind]. rewrite Hfinish by lia.
    do 2 f_equal. rewrite <- Hid at 1.
    rewrite red_poly_add, red_mul.
    change (red n (cyclo n)) with (act n (cyclo n) (vone n)).
    rewrite act_cyclo, act_vzero by lia.
    rewrite vadd_zero_l by apply length_red.
    symmetry. apply red_short. lia.
Qed.

Lemma fle_half r m :
  Py.fle (inject_Z r) (Py.fdiv (inject_Z m) 2) = (2 * r <=? m).
Proof.
  unfold Py.fle, Py.fdiv, Qle_bool, Qdiv, Qmult, Qinv, inject_Z.
  cbn -[Z.mul Z.leb].
  apply eq_true_iff_eq. rewrite !Z.leb_le. lia.
Qed.

Lemma get_centered_remainder_spec x m :
  m <> 0 -> get_centered_remainder x m = Ok (centered m x).
Proof.
  intros H. unfold get_centered_remainder, Py.mod_, centered.
  destruct (Z.eqb_spec m 0); [contradiction|]. cbn [bind].
  now rewrite fle_half.
Qed.

Lemma reduce_coefficients_by_modulus_spec p m :
  m <> 0 ->
  reduce_coefficients_by_modulus (mkPolynomial p) m
  = Ok (mkPolynomial (map (centered m) p)).
Proof.
  intros H. unfold reduce_coefficients_by_modulus. cbn [coefficients].
  rewrite (mapM_pure _ (centered m)); [reflexivity|].
  intros x _. now apply get_centered_remainder_spec.
Qed.

(** [p] reduced into [Z_m[x]/(x^n+1)], centered. *)
Lemma reduce_in_ring_spec n m nz p :
  (1 <= n)%nat -> m <> 0 ->
  reduce_in_ring (mkPolynomial p) (mkPolynomialRing (cyclo n) m nz)
  = Ok (mkPolynomial (map (centered m) (red n p))).
Proof.
  intros Hn Hm. unfold reduce_in_ring. cbn [denominator modulus].
  rewrite reduce_coefficients_by_cyclo_spec by exact Hn. cbn [bind].
  now apply reduce_coefficients_by_modulus_spec.
Qed.

Lemma is_power_of_two_pos n : is_power_of_two n = true -> 0 < n.
Proof.
  unfold is_power_of_two. intros H. apply andb_prop in H. destruct H as [H _].
  now apply Z.ltb_lt.
Qed.

Lemma PolynomialRing_init_spec nz m ring :
  PolynomialRing_init nz m = Ok ring ->
  is_power_of_two nz = true /\
  ring = mkPolynomialRing (cyclo (Z.to_nat nz)) m nz.
Proof.
  unfold PolynomialRing_init, Py.assert.
  destruct (is_power_of_two nz) eqn:Hp; cbn [bind]; [|discriminate].
  intros H. inversion H; subst. split; [reflexivity|].
  f_equal. unfold cyclo. rewrite replicate_zeros.
  replace (Z.to_nat (nz - 1)) with (Z.to_nat nz - 1)%nat by lia. reflexivity.
Qed.

(* ------------------------------------------------------------------ *)
(** ** Rounding and centering *)




Lemma centered_cong m x : (m | centered m x - x).
Proof.
  unfold centered. destruct (Z.eq_dec m 0) as [->|Hm].
  - rewrite Z.mod_0_r. destruct (2 * x <=? 0).
    + exists 0. lia.
    + exists 0. lia.
  - pose proof (Z.div_mod x m Hm).
    destruct (2 * (x mod m) <=? m).
    + exists (- (x / m)). lia.
    + exists (- (x / m) - 1). lia.
Qed.

Lemma centered_range m x :
  0 < m -> - m < 2 * centered m x <= m.
Proof.
  intros Hm. unfold centered. pose proof (Z.mod_pos_bound x m Hm).
  destruct (Z.leb_spec (2 * (x mod m)) m); lia.
Qed.

Lemma centered_id m x : 0 < m -> - m < 2 * x <= m -> centered m x = x.
Proof.
  intros Hm Hx. unfold centered.
  destruct (Z_lt_le_dec x 0) as [Hneg | Hpos].
  - assert (x mod m = x + m).
    { symmetry. apply (Z.mod_unique x m (-1)); lia. }
    destruct (Z.leb_spec (2 * (x mod m)) m); lia.
  - rewrite Z.mod_small by lia.
    destruct (Z.leb_spec (2 * x) m); lia.
Qed.

Lemma centered_add_mul m x k : centered m (x + m * k) = centered m x.
Proof.
  unfold centered. destruct (Z.eq_dec m 0) as [->|Hm].
  - now rewrite Z.mul_0_l, Z.add_0_r.
  - now rewrite (Z.mul_comm m k), Z.mod_add.
Qed.



(* ------------------------------------------------------------------ *)
(** ** Congruence modulo q on Z^n *)

Lemma vcong_refl n q u : vcong n q u u.
Proof. intros i _. rewrite Z.sub_diag. apply Z.divide_0_r. Qed.

Lemma vcong_sym n q u v : vcong n q u v -> vcong n q v u.
Proof.
  intros H i Hi. destruct (H i Hi) as [k Hk]. exists (- k). lia.
Qed.


Lemma vcong_vadd n q u u' v v' :
  vcong n q u u' -> vcong n q v v' -> vcong n q (vadd n u v) (vadd n u' v').
Proof.
  intros H1 H2 i Hi. unfold vadd. rewrite !nth_vec by lia.
  destruct (H1 i Hi) as [k Hk]. destruct (H2 i Hi) as [j Hj].
  exists (k + j). lia.
Qed.





Lemma vcong_centered n q v :
  length v = n -> vcong n q (map (centered q) v) v.
Proof.
  intros H i Hi.
  rewrite nth_indep with (d' := centered q 0) by (rewrite length_map; lia).
  rewrite map_nth. apply centered_cong.
Qed.

Lemma vcong_divide n q q' u v : (q' | q) -> vcong n q u v -> vcong n q' u v.
Proof.
  intros Hd H i Hi. eapply Z.divide_trans; [exact Hd | now apply H].
Qed.

Lemma red_centered n q p : length p = n -> red n (map (centered q) p) = map (centered q) p.
Proof. intros H. apply red_fixed. now rewrite length_map. Qed.


Lemma poly_mul_naive_const c p : poly_mul_naive [c] p = scale c p.
Proof.
  destruct p as [|x p].
  - reflexivity.
  - rewrite poly_mul_naive_cons, poly_mul_naive_nil_l.
    replace (length (x :: p) - 1)%nat with (length p) by (simpl; lia).
    cbn [length scale map]. f_equal. rewrite app_nil_r.
    apply zip_add_zeros_r. apply length_map.
Qed.

(* ------------------------------------------------------------------ *)
(** ** bfv.py: parameters *)

Lemma RLWE_init_spec nz q t d rlwe :
  RLWE_init nz q t d = Ok rlwe ->
  t <= q /\ is_power_of_two nz = true /\ 1 < q /\ 1 < t /\
  is_prime t = true /\ Z.gcd q t = 1 /\
  rlwe = mkRLWE nz (mkPolynomialRing (cyclo (Z.to_nat nz)) q nz)
                (mkPolynomialRing (cyclo (Z.to_nat nz)) t nz) d.
Proof.
  unfold RLWE_init, Py.assert.
  destruct (Z.ltb_spec q t) as [|Htq]; [discriminate|].
  destruct (is_power_of_two nz) eqn:Hn; cbn [bind]; [|discriminate].
  destruct (Z.ltb_spec 1 q) as [Hq|]; cbn [bind]; [|discriminate].
  destruct (Z.ltb_spec 1 t) as [Ht|]; cbn [bind]; [|discriminate].
  destruct (is_prime t) eqn:Hp; cbn [bind]; [|discriminate].
  destruct (Z.eqb_spec (Z.gcd q t) 1) as [Hg|]; cbn [bind]; [|discriminate].
  destruct (PolynomialRing_init nz q) as [Rq0|] eqn:HRq; cbn [bind]; [|discriminate].
  destruct (PolynomialRing_init nz t) as [Rt0|] eqn:HRt; cbn [bind]; [|discriminate].
  apply PolynomialRing_init_spec in HRq, HRt.
  destruct HRq as [_ ->], HRt as [_ ->].
  intros H. inversion H; subst. repeat split; auto.
Qed.



Lemma noise_check_iff q t l :
  forallb (fun coeff => Py.flt (inject_Z (Z.abs coeff)) (threshold q t)) l = true
  <-> below (threshold q t) l.
Proof.
  unfold below. rewrite forallb_forall.
  split; intros H c Hc; specialize (H c Hc).
  - unfold Py.flt in H. apply negb_true_iff, not_true_iff_false in H.
    rewrite Qle_bool_iff in H. now apply Qnot_le_lt.
  - unfold Py.flt. apply negb_true_iff, not_true_iff_false.
    rewrite Qle_bool_iff. now apply Qlt_not_le.
Qed.

Lemma noise_threshold_spec q t :
  t <> 0 -> noise_threshold q t = Ok (threshold q t).
Proof.
  intros Ht. unfold noise_threshold, Py.mod_, Py.truediv.
  destruct (Z.eqb_spec t 0); [contradiction|]. cbn [bind].
  destruct (Z.eqb_spec (2 * t) 0); [lia|]. reflexivity.
Qed.

(* ------------------------------------------------------------------ *)
(** ** bfv.py: the scheme, run with an exact multiplication *)

Lemma red_mul_comm n a b : red n (poly_mul_naive a b) = act n b (red n a).
Proof. rewrite red_mul. unfold red. apply act_comm. Qed.

Lemma length_ring_reduce n m p : length (ring_reduce n m p) = n.
Proof. unfold ring_reduce. now rewrite length_map, length_red. Qed.

Lemma red_ring_reduce n m p : red n (ring_reduce n m p) = ring_reduce n m p.
Proof. apply red_fixed, length_ring_reduce. Qed.

Lemma vcong_ring_reduce n m p : vcong n m (ring_reduce n m p) (red n p).
Proof. apply vcong_centered, length_red. Qed.

Section SchemeProofs.

Variable poly_mul : list Z -> list Z -> list Z.
Hypothesis poly_mul_exact : forall a b, poly_mul a b = poly_mul_naive a b.

Variables (nz q t : Z) (d : DiscreteGaussian) (rlwe : RLWE).
Hypothesis Hrlwe : RLWE_init nz q t d = Ok rlwe.

Local Abbreviation N := (Z.to_nat nz).
Local Abbreviation P := mkPolynomial.

Lemma rlwe_facts :
  (1 <= N)%nat /\ 1 < q /\ 1 < t /\
  Rq rlwe = mkPolynomialRing (cyclo N) q nz /\
  Rt rlwe = mkPolynomialRing (cyclo N) t nz.
Proof.
  destruct (RLWE_init_spec _ _ _ _ _ Hrlwe) as (_ & Hn & Hq & Ht & _ & _ & ->).
  apply is_power_of_two_pos in Hn. cbn [Rq Rt]. repeat split; auto; lia.
Qed.

Lemma reduce_in_Rq p :
  reduce_in_ring (P p) (Rq rlwe) = Ok (P (ring_reduce N q p)).
Proof.
  destruct rlwe_facts as (Hn & Hq & _ & -> & _).
  apply reduce_in_ring_spec; lia.
Qed.

Lemma reduce_in_Rt p :
  reduce_in_ring (P p) (Rt rlwe) = Ok (P (ring_reduce N t p)).
Proof.
  destruct rlwe_facts as (Hn & _ & Ht & _ & ->).
  apply reduce_in_ring_spec; lia.
Qed.



Lemma EvalAdd_eval a0 a1 b0 b1 :
  EvalAdd rlwe (P a0, P a1) (P b0, P b1)
  = Ok (P (ring_reduce N q (poly_add a0 b0)), P (ring_reduce N q (poly_add a1 b1))).
Proof.
  unfold EvalAdd, Polynomial_add. cbn [coefficients fst snd].
  now rewrite !reduce_in_Rq.
Qed.


(** [BFV.Decrypt] step by step: the assertion, then the rounding.  This
    holds for any multiplication routine. *)
Lemma Decrypt_steps s ct0 ct1 error e u :
  Decrypt poly_mul rlwe (P s) (P ct0, P ct1) error e u
  = if forallb (fun coeff => Py.flt (inject_Z (Z.abs coeff)) (threshold q t))
               (coefficients (noise poly_mul (P s) error e u))
    then Ok (P (ring_reduce N t
                  (map (fun coeff => Py.round (inject_Z coeff / inject_Z q))
                       (poly_mul [t]
                          (ring_reduce N q (poly_add ct0 (poly_mul ct1 s)))))))
    else Raise AssertionError.
Proof.
  destruct rlwe_facts as (Hn & Hq & Ht & HRq & HRt).
  unfold Decrypt. rewrite HRq, HRt. cbn [modulus]. rewrite <- HRq, <- HRt.
  rewrite noise_threshold_spec by lia. cbn [bind].
  destruct (forallb _ _); cbn [Py.assert bind]; [|reflexivity].
  unfold Polynomial_add, Polynomial_mul. cbn [coefficients fst snd].
  rewrite reduce_in_Rq. cbn [bind coefficients].
  rewrite (mapM_pure _ (fun coeff => Py.round (inject_Z coeff / inject_Z q))).
  2:{ intros x _. unfold Py.truediv. destruct (Z.eqb_spec q 0); [lia | reflexivity]. }
  cbn [bind]. rewrite reduce_in_Rt. do 2 f_equal.
  unfold ring_reduce at 1 3. now rewrite red_strip.
Qed.




Lemma nth_map_lt (f : Z -> Z) l i :
  (i < length l)%nat -> nth i (map f l) 0 = f (nth i l 0).
Proof.
  intros H. rewrite nth_indep with (d' := f 0) by (rewrite length_map; lia).
  apply map_nth.
Qed.







Lemma forallb_false_exists {A} (f : A -> bool) l :
  forallb f l = false -> exists x, In x l /\ f x = false.
Proof.
  induction l as [|x l IH]; simpl; [discriminate|].
  destruct (f x) eqn:Hx; simpl; intros H.
  - destruct (IH H) as [y [Hy Hf]]. eauto.
  - eauto.
Qed.


End SchemeProofs.

(* ------------------------------------------------------------------ *)
(** ** bfv.py: decryption and homomorphic addition *)






(* ------------------------------------------------------------------ *)
(** ** polynomial.py: division and ring reduction *)

Lemma red_division n quo rem p :
  (1 <= n)%nat -> (length rem <= n)%nat ->
  poly_add (poly_mul_naive quo (cyclo n)) rem = p ->
  red n p = pad n rem.
Proof.
  intros Hn Hrem <-. rewrite red_poly_add, red_mul.
  change (red n (cyclo n)) with (act n (cyclo n) (vone n)).
  rewrite act_cyclo, act_vzero by lia.
  rewrite vadd_zero_l by apply length_red.
  apply red_short. lia.
Qed.

(** C10: for a monic divisor of length at most [len(dividend) + 1],
    [poly_div] returns a quotient and a remainder with
    [dividend = quotient * divisor + remainder] as coefficient lists and a
    remainder shorter than the divisor; and [reduce_coefficients_by_cyclo]
    replaces a polynomial by [n] coefficients that differ from it by a
    multiple of [x^n + 1] (the two sides agree up to leading zeros). *)
Theorem poly_div_monic_correct :
  (forall dividend divisor_tail : list Z,
      (length (1%Z :: divisor_tail) <= length dividend + 1)%nat ->
      exists quotient remainder,
        poly_div dividend (1 :: divisor_tail) = Ok (quotient, remainder) /\
        poly_add (poly_mul_naive quotient (1 :: divisor_tail)) remainder = dividend /\
        (length remainder < length (1%Z :: divisor_tail))%nat) /\
  (forall n p,
      (1 <= n)%nat ->
      exists p' K,
        reduce_coefficients_by_cyclo (mkPolynomial p) (cyclo n) = Ok (mkPolynomial p') /\
        length p' = n /\
        Py.strip_leading_zeros (poly_add (poly_mul_naive K (cyclo n)) p')
        = Py.strip_leading_zeros p).
Proof.
  split.
  - intros dividend dt H. simpl in H.
    destruct (poly_div_monic_spec dividend dt ltac:(lia))
      as (quo & rem & Hdiv & _ & Hid & Hrem & _).
    exists quo, rem. repeat split; auto. simpl. lia.
  - intros n p Hn. exists (red n p).
    rewrite reduce_coefficients_by_cyclo_spec by exact Hn.
    destruct (Nat.lt_ge_cases (length p) n) as [Hlt | Hge].
    + exists []. repeat split; [apply length_red|].
      rewrite poly_mul_naive_nil_l, length_cyclo by lia.
      replace (S n - 1)%nat with n by lia.
      rewrite poly_add_same_length by (now rewrite length_zeros, length_red).
      rewrite zip_add_zeros_l by apply length_red.
      rewrite red_short by lia. apply strip_zeros_app.
    + assert (Hdt : length (zeros (n - 1) ++ [1]) = n)
        by (rewrite length_app, length_zeros; simpl; lia).
      destruct (poly_div_monic_spec p (zeros (n - 1) ++ [1]) ltac:(lia))
        as (quo & rem & _ & Hquo & Hid & Hrem & _).
      change (1 :: zeros (n - 1) ++ [1]) with (cyclo n) in Hid.
      exists quo. repeat split; [apply length_red|].
      rewrite (red_division n quo rem p Hn ltac:(lia) Hid).
      rewrite poly_add_pad_r; [now rewrite Hid | lia |].
      rewrite poly_mul_naive_length, Hquo, length_cyclo by lia. lia.
Qed.


(* ------------------------------------------------------------------ *)
(** ** bfv.py: validation of the parameters *)

Lemma is_power_of_two_spec n :
  is_power_of_two n = true <-> exists k, 0 <= k /\ n = 2 ^ k.
Proof.
  unfold is_power_of_two. rewrite andb_true_iff, Z.ltb_lt, Z.eqb_eq. split.
  - intros [Hpos Hland].
    exists (Z.log2 n). split; [apply Z.log2_nonneg|].
    destruct (Z.log2_spec n Hpos) as [Hlo Hhi].
    destruct (Z.eq_dec n (2 ^ Z.log2 n)) as [|Hne]; [assumption|exfalso].
    assert (Hlog : Z.log2 (n - 1) = Z.log2 n).
    { apply Z.log2_unique; [apply Z.log2_nonneg|].
      rewrite <- Z.add_1_r. lia. }
    assert (Hbit : Z.testbit (Z.land n (n - 1)) (Z.log2 n) = true).
    { rewrite Z.land_spec, Z.bit_log2 by lia.
      rewrite <- Hlog. rewrite Z.bit_log2; [reflexivity|].
      pose proof (Z.pow_pos_nonneg 2 (Z.log2 n) ltac:(lia) (Z.log2_nonneg n)). lia. }
    rewrite Hland, Z.bits_0 in Hbit. discriminate.
  - intros [k [Hk ->]]. split; [apply Z.pow_pos_nonneg; lia|].
    rewrite Z.sub_1_r, <- Z.ones_equiv, Z.land_ones by lia.
    apply Z.mod_same. pose proof (Z.pow_pos_nonneg 2 k ltac:(lia) Hk). lia.
Qed.



(* ------------------------------------------------------------------ *)
(** ** polynomial.py: sampling *)




Lemma Forall2_In_r {A B} (R : A -> B -> Prop) l r y :
  Forall2 R l r -> In y r -> exists x, In x l /\ R x y.
Proof.
  induction 1 as [|x y' l r Hxy _ IH]; intros Hin; [contradiction|].
  destruct Hin as [<- | Hin].
  - exists x. split; [now left | exact Hxy].
  - destruct (IH Hin) as [x' [Hx' Hr]]. exists x'. split; [now right | exact Hr].
Qed.




(* ------------------------------------------------------------------ *)
(** ** The CRT subsystem: integers *)

Lemma product_app l1 l2 : CRT.product (l1 ++ l2) = CRT.product l1 * CRT.product l2.
Proof.
  unfold CRT.product. induction l1 as [|x l1 IH]; cbn [app fold_right]; [ring|].
  rewrite IH. ring.
Qed.

Lemma product_In l x : In x l -> (x | CRT.product l).
Proof.
  intros H. apply in_split in H. destruct H as (l1 & l2 & ->).
  rewrite product_app. change (CRT.product (x :: l2)) with (x * CRT.product l2).
  exists (CRT.product l1 * CRT.product l2). ring.
Qed.

Lemma pairwise_coprime_cons a l :
  CRT.pairwise_coprime (a :: l) = true <->
  (forall x, In x l -> Z.gcd a x = 1) /\ CRT.pairwise_coprime l = true.
Proof.
  simpl. rewrite andb_true_iff, forallb_forall.
  split; intros [H1 H2]; split; auto; intros x Hx.
  - apply Z.eqb_eq. auto.
  - apply Z.eqb_eq. auto.
Qed.

Lemma pairwise_coprime_mid pre a post :
  CRT.pairwise_coprime (pre ++ a :: post) = true ->
  (forall x, In x pre -> Z.gcd a x = 1) /\ (forall y, In y post -> Z.gcd a y = 1).
Proof.
  induction pre as [|b pre IH]; intros H.
  - apply pairwise_coprime_cons in H. destruct H as [H _].
    split; [intros x [] | exact H].
  - change ((b :: pre) ++ a :: post) with (b :: (pre ++ a :: post)) in H.
    apply pairwise_coprime_cons in H. destruct H as [Hb H].
    destruct (IH H) as [H1 H2]. split; [|exact H2].
    intros x [<- | Hx]; [|auto].
    rewrite Z.gcd_comm. apply Hb. apply in_or_app. right. now left.
Qed.

Lemma coprime_product a l :
  (forall x, In x l -> Z.gcd a x = 1) -> Z.gcd a (CRT.product l) = 1.
Proof.
  unfold CRT.product. induction l as [|x l IH]; intros H; cbn [fold_right].
  - apply Z.gcd_1_r.
  - apply Z.coprime_mul_r; [apply H; now left | apply IH; intros; apply H; now right].
Qed.

Lemma product_divide l D :
  CRT.pairwise_coprime l = true ->
  (forall x, In x l -> (x | D)) -> (CRT.product l | D).
Proof.
  induction l as [|a l IH]; intros Hco Hdiv.
  - apply Z.divide_1_l.
  - apply pairwise_coprime_cons in Hco. destruct Hco as [Ha Hco].
    change (CRT.product (a :: l)) with (a * CRT.product l).
    destruct (Hdiv a (or_introl eq_refl)) as [k Hk].
    assert (Hl : (CRT.product l | D)) by (apply IH; auto; intros; apply Hdiv; now right).
    rewrite Hk, Z.mul_comm in Hl.
    apply Z.gauss in Hl; [|rewrite Z.gcd_comm; now apply coprime_product].
    destruct Hl as [j ->]. exists j. lia.
Qed.

Lemma crt_sum_app q xs1 xs2 qs1 qs2 :
  length xs1 = length qs1 ->
  CRT.crt_sum q (xs1 ++ xs2) (qs1 ++ qs2) = CRT.crt_sum q xs1 qs1 + CRT.crt_sum q xs2 qs2.
Proof.
  unfold CRT.crt_sum. revert qs1.
  induction xs1 as [|x xs1 IH]; intros [|y qs1] H; simpl in *; try discriminate; auto.
  rewrite IH by lia. ring.
Qed.

Lemma crt_sum_divisible a q xs qs :
  (forall qj, In qj qs -> (a | q / qj)) -> (a | CRT.crt_sum q xs qs).
Proof.
  unfold CRT.crt_sum. revert qs.
  induction xs as [|x xs IH]; intros [|y qs] H; simpl; try apply Z.divide_0_r.
  apply Z.divide_add_r; [|apply IH; intros; apply H; now right].
  apply Z.divide_mul_l, Z.divide_mul_r, H. now left.
Qed.

Lemma product_div_mid pre a post :
  a <> 0 -> CRT.product (pre ++ a :: post) / a = CRT.product pre * CRT.product post.
Proof.
  intros Ha. rewrite product_app.
  change (CRT.product (a :: post)) with (a * CRT.product post).
  replace (CRT.product pre * (a * CRT.product post))
    with (CRT.product pre * CRT.product post * a) by ring.
  now apply Z.div_mul.
Qed.

Lemma product_div_other pre a post qj :
  CRT.product (pre ++ a :: post) <> 0 -> In qj (pre ++ post) ->
  (a | CRT.product (pre ++ a :: post) / qj).
Proof.
  intros Hq Hin. apply product_In in Hin. destruct Hin as [c Hc].
  rewrite product_app in Hc.
  assert (Hprod : CRT.product (pre ++ a :: post) = c * a * qj).
  { rewrite product_app.
    change (CRT.product (a :: post)) with (a * CRT.product post).
    replace (CRT.product pre * (a * CRT.product post))
      with (a * (CRT.product pre * CRT.product post)) by ring.
    rewrite Hc. ring. }
  rewrite Hprod in *. rewrite Z.div_mul by (intros ->; lia).
  apply Z.divide_factor_r.
Qed.

(** Each residue is recovered modulo its own factor. *)
Lemma crt_sum_residue pre qi post xpre xi xpost :
  CRT.pairwise_coprime (pre ++ qi :: post) = true ->
  CRT.product (pre ++ qi :: post) <> 0 ->
  length xpre = length pre ->
  (qi | CRT.crt_sum (CRT.product (pre ++ qi :: post))
                    (xpre ++ xi :: xpost) (pre ++ qi :: post) - xi).
Proof.
  intros Hco Hq Hlen.
  set (q := CRT.product (pre ++ qi :: post)) in *.
  rewrite crt_sum_app by exact Hlen.
  change (xi :: xpost) with ([xi] ++ xpost). change (qi :: post) with ([qi] ++ post).
  rewrite crt_sum_app by reflexivity.
  assert (Hqi : qi <> 0).
  { intros ->. apply Hq. unfold q. rewrite product_app.
    change (CRT.product (0 :: post)) with (0 * CRT.product post). ring. }
  assert (Hpre : (qi | CRT.crt_sum q xpre pre)).
  { apply crt_sum_divisible. intros qj Hj. apply product_div_other; auto.
    apply in_or_app. now left. }
  assert (Hpost : (qi | CRT.crt_sum q xpost post)).
  { apply crt_sum_divisible. intros qj Hj. apply product_div_other; auto.
    apply in_or_app. now right. }
  assert (Hmid : (qi | CRT.crt_sum q [xi] [qi] - xi)).
  { unfold CRT.crt_sum. simpl. rewrite Z.add_0_r.
    unfold q. rewrite product_div_mid by exact Hqi.
    set (Mi := CRT.product pre * CRT.product post).
    assert (Hcop : Z.coprime Mi qi).
    { unfold Z.coprime, Mi. rewrite Z.gcd_comm.
      destruct (pairwise_coprime_mid _ _ _ Hco) as [H1 H2].
      apply Z.coprime_mul_r; now apply coprime_product. }
    pose proof (Z.invmod_coprime' Mi qi Hcop) as Hinv.
    assert (Hone : (qi | Z.invmod Mi qi * Mi - 1)).
    { apply Z.mod_divide; [exact Hqi|].
      rewrite Zminus_mod, Hinv, Z.sub_diag. apply Z.mod_0_l. exact Hqi. }
    destruct Hone as [k Hk]. exists (xi * k).
    replace (xi * Mi * Z.invmod Mi qi - xi) with (xi * (Z.invmod Mi qi * Mi - 1)) by ring.
    rewrite Hk. ring. }
  destruct Hpre as [k1 H1], Hpost as [k2 H2], Hmid as [k3 H3].
  exists (k1 + k2 + k3). lia.
Qed.

Lemma Forall2_split_mid {A B} (R : A -> B -> Prop) xs pre y post :
  Forall2 R xs (pre ++ y :: post) ->
  exists xpre x xpost,
    xs = xpre ++ x :: xpost /\ length xpre = length pre /\ R x y.
Proof.
  intros H. apply Forall2_app_inv_r in H.
  destruct H as (xpre & xrest & Hpre & Hrest & ->).
  inversion Hrest as [|x y' xpost post' Hxy Hpost]; subst.
  exists xpre, x, xpost. repeat split; auto.
  now apply Forall2_length in Hpre.
Qed.

(** The Chinese remainder theorem for [crt_sum]. *)
Lemma crt_sum_congruent qis xis y :
  CRT.pairwise_coprime qis = true -> CRT.product qis <> 0 ->
  Forall2 (fun xi qi => (qi | xi - y)) xis qis ->
  (CRT.product qis | CRT.crt_sum (CRT.product qis) xis qis - y).
Proof.
  intros Hco Hq Hres. apply product_divide; [exact Hco|].
  intros qi Hin. apply in_split in Hin. destruct Hin as (pre & post & ->).
  destruct (Forall2_split_mid _ _ _ _ _ Hres) as (xpre & xi & xpost & -> & Hlen & [k Hk]).
  destruct (crt_sum_residue pre qi post xpre xi xpost Hco Hq Hlen) as [j Hj].
  exists (j + k). lia.
Qed.

Lemma CRTModuli_init_spec qi_bound qis moduli :
  CRT.CRTModuli_init qi_bound qis = Ok moduli ->
  CRT.pairwise_coprime qis = true /\
  moduli = CRT.mkCRTModuli qis (CRT.product qis).
Proof.
  unfold CRT.CRTModuli_init, Py.assert.
  destruct (CRT.pairwise_coprime qis); cbn [bind]; [|discriminate].
  destruct (forallb _ qis); cbn [bind]; [|discriminate].
  intros H. inversion H. auto.
Qed.

Lemma recover_eq moduli xis :
  CRT.recover (CRT.from_crt_components moduli xis)
  = CRT.crt_sum (CRT.q moduli) xis (CRT.qis moduli) mod CRT.q moduli.
Proof. reflexivity. Qed.


Lemma Forall2_positions {A B} (R : A -> B -> Prop) xs ys :
  length xs = length ys ->
  (forall pre y post xpre x xpost,
      ys = pre ++ y :: post -> xs = xpre ++ x :: xpost ->
      length xpre = length pre -> R x y) ->
  Forall2 R xs ys.
Proof.
  revert xs. induction ys as [|y ys IH] using rev_ind; intros xs Hlen Hall.
  - destruct xs; [constructor | discriminate].
  - destruct xs as [|x xs _] using rev_ind;
      [rewrite length_app in Hlen; simpl in Hlen; lia|].
    rewrite !length_app in Hlen. simpl in Hlen.
    apply Forall2_app.
    + apply IH; [lia|]. intros pre y0 post xpre x0 xpost Hys Hxs Hl.
      apply (Hall pre y0 (post ++ [y]) xpre x0 (xpost ++ [x])); auto.
      * rewrite Hys, <- app_assoc. reflexivity.
      * rewrite Hxs, <- app_assoc. reflexivity.
    + constructor; [|constructor].
      apply (Hall ys y [] xs x []); auto. lia.
Qed.

Lemma Forall2_and {A B} (R1 R2 : A -> B -> Prop) xs ys :
  Forall2 R1 xs ys -> Forall2 R2 xs ys -> Forall2 (fun x y => R1 x y /\ R2 x y) xs ys.
Proof.
  intros H1. induction H1; intros H2; inversion H2; subst; constructor; auto.
Qed.

(** C6: on the moduli [[5, 7, 8]] (for any bound that admits them) the
    residues [[3, 1, 6]] recover to 78; for validated moduli and [x] in
    [[0, q)], [from_integer] stores the residues [x mod qi] and [recover]
    gives [x] back; and for any residues [recover] is the one value of
    [[0, q)] congruent to each residue modulo its factor. *)
Theorem CRTInteger_recover_correct qi_bound :
  (forall moduli,
      CRT.CRTModuli_init qi_bound [5; 7; 8] = Ok moduli ->
      CRT.recover (CRT.from_crt_components moduli [3; 1; 6]) = 78) /\
  (forall qis moduli x,
      CRT.CRTModuli_init qi_bound qis = Ok moduli ->
      0 <= x < CRT.q moduli ->
      CRT.xis (CRT.from_integer moduli x) = map (fun qi => x mod qi) qis /\
      CRT.recover (CRT.from_integer moduli x) = x) /\
  (forall qis moduli xis,
      CRT.CRTModuli_init qi_bound qis = Ok moduli ->
      0 < CRT.q moduli -> length xis = length qis ->
      let r := CRT.recover (CRT.from_crt_components moduli xis) in
      0 <= r < CRT.q moduli /\
      Forall2 (fun xi qi => (qi | r - xi)) xis qis /\
      forall z, 0 <= z < CRT.q moduli ->
                Forall2 (fun xi qi => (qi | z - xi)) xis qis -> z = r).
Proof.
  split; [|split].
  - intros moduli H. apply CRTModuli_init_spec in H. destruct H as [_ ->].
    reflexivity.
  - intros qis moduli x H Hx. apply CRTModuli_init_spec in H. destruct H as [Hco ->].
    cbn [CRT.q] in Hx. split; [reflexivity|].
    unfold CRT.from_integer. cbn [CRT.qis].
    change (CRT.recover _) with
      (CRT.crt_sum (CRT.product qis) (map (fun qi => x mod qi) qis) qis mod CRT.product qis).
    assert (Hcong : (CRT.product qis
                     | CRT.crt_sum (CRT.product qis) (map (fun qi => x mod qi) qis) qis - x)).
    { apply crt_sum_congruent; [exact Hco | lia |].
      clear. induction qis as [|qi qis IH]; simpl; constructor; auto.
      destruct (Z.eq_dec qi 0) as [->|Hqi].
      - rewrite Z.mod_0_r, Z.sub_diag. apply Z.divide_0_r.
      - exists (- (x / qi)). pose proof (Z.div_mod x qi Hqi). lia. }
    destruct Hcong as [k Hk].
    replace (CRT.crt_sum _ _ _) with (x + k * CRT.product qis) by lia.
    rewrite Z.mod_add by lia. apply Z.mod_small. lia.
  - intros qis moduli xis H Hq Hlen r.
    apply CRTModuli_init_spec in H. destruct H as [Hco ->].
    cbn [CRT.q] in *. unfold r. clear r. rewrite recover_eq. cbn [CRT.q CRT.qis].
    set (S := CRT.crt_sum (CRT.product qis) xis qis).
    assert (Hres : Forall2 (fun xi qi => (qi | S mod CRT.product qis - xi)) xis qis).
    { assert (Hall : forall pre qi post xpre xi xpost,
                 qis = pre ++ qi :: post -> xis = xpre ++ xi :: xpost ->
                 length xpre = length pre -> (qi | S mod CRT.product qis - xi)).
      { intros pre qi post xpre xi xpost Hqs Hxs Hl.
        assert (Hd : (qi | S - xi)).
        { unfold S. rewrite Hqs, Hxs. apply crt_sum_residue; auto; rewrite <- Hqs; auto; lia. }
        assert (Hqd : (qi | CRT.product qis)) by (apply product_In; rewrite Hqs;
                                               apply in_or_app; right; now left).
        destruct Hd as [a Ha], Hqd as [b Hb].
        exists (a - (S / CRT.product qis) * b).
        pose proof (Z.div_mod S (CRT.product qis) ltac:(lia)). nia. }
      now apply Forall2_positions. }
    split; [apply Z.mod_pos_bound; lia|]. split; [exact Hres|].
    intros z Hz Hzres.
    assert (Hdiv : (CRT.product qis | z - S mod CRT.product qis)).
    { apply product_divide; [exact Hco|]. intros qi Hin.
      pose proof (Forall2_and _ _ _ _ Hres Hzres) as Hboth.
      destruct (Forall2_In_r _ _ _ _ Hboth Hin) as [xi [_ [[j Hj] [k Hk]]]].
      exists (k - j). lia. }
    pose proof (Z.mod_pos_bound S (CRT.product qis) Hq).
    destruct Hdiv as [k Hk]. assert (k = 0) by nia. lia.
Qed.

(* ------------------------------------------------------------------ *)
(** ** The CRT subsystem: polynomials *)



Lemma getitem_nth {A} (l : list A) i d :
  (i < length l)%nat -> Py.getitem l i = Ok (nth i l d).
Proof.
  intros H. unfold Py.getitem.
  destruct (nth_error l i) eqn:E.
  - now rewrite (nth_error_nth _ _ _ E).
  - apply nth_error_None in E. lia.
Qed.










(* ------------------------------------------------------------------ *)
(** ** polynomial.py: the transform-based product *)

(** The [while] loop that doubles [n] has left it at or above
    [product_len] when its fuel, [product_len] iterations, is spent. *)
Lemma next_power_of_two_enough fuel : forall n product_len,
  0 < n -> product_len <= n * 2 ^ Z.of_nat fuel ->
  product_len <= FFT.next_power_of_two fuel n product_len.
Proof.
  induction fuel as [|fuel IH]; intros n L Hn HL.
  - simpl in *. lia.
  - cbn [FFT.next_power_of_two]. destruct (Z.ltb_spec n L); [|assumption].
    apply IH; [lia|].
    rewrite Nat2Z.inj_succ, Z.pow_succ_r in HL by lia. lia.
Qed.

Lemma next_power_of_two_reached product_len :
  product_len <= FFT.next_power_of_two (Z.to_nat product_len) 1 product_len.
Proof.
  apply next_power_of_two_enough; [lia|].
  destruct (Z_lt_le_dec product_len 0) as [Hneg | Hpos].
  - pose proof (Z.pow_nonneg 2 (Z.of_nat (Z.to_nat product_len)) ltac:(lia)). lia.
  - rewrite Z2Nat.id by exact Hpos.
    pose proof (Z.pow_gt_lin_r 2 product_len ltac:(lia) Hpos). lia.
Qed.

Lemma Qfloor_unique (x : Q) (z : Z) :
  (inject_Z z <= x)%Q -> (x < inject_Z (z + 1))%Q -> Qfloor x = z.
Proof.
  intros Hlo Hhi.
  pose proof (Qfloor_le x) as H1. pose proof (Qlt_floor x) as H2.
  assert (Ha : (inject_Z (Qfloor x) < inject_Z (z + 1))%Q) by lra.
  assert (Hb : (inject_Z z < inject_Z (Qfloor x + 1))%Q) by lra.
  rewrite <- Zlt_Qlt in Ha, Hb. lia.
Qed.

(** Rounding to the nearest integer absorbs any round-off under 1/2. *)
Lemma round_absorbs_round_off (x : Q) (z : Z) :
  (Qabs (x - inject_Z z) < 1 # 2)%Q -> Py.round x = z.
Proof.
  intros H. apply Qabs_Qlt_condition in H. destruct H as [Hlo Hhi].
  assert (Ep : (inject_Z (z + 1) == inject_Z z + 1)%Q)
    by (rewrite inject_Z_plus; reflexivity).
  assert (Em : (inject_Z (z - 1) == inject_Z z - 1)%Q).
  { unfold Z.sub. rewrite inject_Z_plus. reflexivity. }
  unfold Py.round.
  destruct (Qlt_le_dec x (inject_Z z)) as [Hneg | Hpos].
  - assert (Hf : Qfloor x = z - 1).
    { apply Qfloor_unique; [lra|].
      replace (z - 1 + 1) with z by lia. exact Hneg. }
    rewrite Hf.
    assert (Hc : (x - inject_Z (z - 1) ?= 1 # 2)%Q = Gt)
      by (rewrite <- Qgt_alt; lra).
    rewrite Hc. lia.
  - assert (Hf : Qfloor x = z) by (apply Qfloor_unique; lra).
    rewrite Hf.
    assert (Hc : (x - inject_Z z ?= 1 # 2)%Q = Lt)
      by (rewrite <- Qlt_alt; lra).
    now rewrite Hc.
Qed.

(** With [round] in place of [int], round-off under 1/2 in the coefficients
    of [product_coeffs_no_pad] would leave the exact product. *)
Lemma round_resolves_product {complex : Type} (real : complex -> Q)
      (coeffs : list complex) (exact : list Z) :
  Forall2 (fun c z => (Qabs (real c - inject_Z z) < 1 # 2)%Q) coeffs exact ->
  map (fun c => Py.round (real c)) coeffs = exact.
Proof.
  induction 1 as [|c z coeffs exact Hcz _ IH]; simpl; [reflexivity|].
  now rewrite IH, (round_absorbs_round_off _ _ Hcz).
Qed.

(** C4: [poly_mul] resolves each coefficient with [int(coeff.real)], which
    truncates towards zero instead of rounding to the nearest integer.  Run
    on [1, 2] and [1, 3] with a transform whose real parts come out 2^-40
    below the exact values (well under 0.5), it returns [0, 4, 5], while
    the schoolbook product, and the nearest integers of the same real
    parts, are [1, 5, 6]. *)
Theorem poly_mul_truncates :
  exists coeffs,
    FFTExample.product_coeffs_no_pad [1; 2] [1; 3] = Ok coeffs /\
    Forall2 (fun c z => (Qabs (FFTExample.real c - inject_Z z) < 1 # 2)%Q)
            coeffs (poly_mul_naive [1; 2] [1; 3]) /\
    map (fun c => Py.round (FFTExample.real c)) coeffs = poly_mul_naive [1; 2] [1; 3] /\
    poly_mul_naive [1; 2] [1; 3] = [1; 5; 6] /\
    FFTExample.poly_mul [1; 2] [1; 3] = Ok [0; 4; 5].
Proof.
  eexists. split; [vm_compute; reflexivity|].
  split; [repeat constructor|].
  split; [vm_compute; reflexivity|].
  split; reflexivity.
Qed.

(* ------------------------------------------------------------------ *)
(** ** Concrete runs *)

Import Example.

Lemma in_ring2 m x y :
  - m < 2 * x <= m -> - m < 2 * y <= m -> in_ring 2 m (P [x; y]).
Proof.
  intros Hx Hy. split; [reflexivity|].
  intros c [<- | [<- | []]]; assumption.
Qed.

(** C1: at [n = 2], [q = 11], [t = 2], with [a = x], [s = x - 1],
    [e = -2x + 2], [u = x + 1] and [e0 = e1 = 0], the noise polynomial is
    [-2x^2 + 2]: every coefficient passes the assertion (threshold 9/4), yet
    modulo [x^2 + 1] the noise is 4, and [Decrypt] returns the plaintext 1 for
    the encryption of 0. *)
Theorem Decrypt_wrong_below_threshold :
  let s := P [1; -1] in
  let e := P [-2; 2] in
  let u := P [1; 1] in
  let m := P [0; 0] in
  let error := (P [0; 0], P [0; 0]) in
  let pk := (P [-3; 1], P [-1; 0]) in
  let ct := (P [-2; 4], P [-1; 1]) in
  RLWE_init 2 11 2 gaussian = Ok (rlwe 11 2) /\
  in_ring 2 2 m /\
  PublicKeyGen poly_mul_naive (rlwe 11 2) s e (draws [6; 5]) = Ok pk /\
  Encrypt poly_mul_naive (rlwe 11 2) pk m error u (11 / 2) = Ok ct /\
  coefficients (noise poly_mul_naive s error e u) = [-2; 0; 2] /\
  below (threshold 11 2) (coefficients (noise poly_mul_naive s error e u)) /\
  Decrypt poly_mul_naive (rlwe 11 2) s ct error e u = Ok (P [0; 1]).
Proof.
  cbv zeta.
  split; [reflexivity|].
  split; [apply in_ring2; lia|].
  split; [reflexivity|].
  split; [reflexivity|].
  split; [reflexivity|].
  split; [apply noise_check_iff; reflexivity | reflexivity].
Qed.

(** The assertion is also too strict: with [u = x], [e = 3x] and [e0 = 3]
    the polynomial [v] is [3x^2 + 3], which is zero modulo [x^2 + 1]; the
    ciphertext carries no noise, and [Decrypt] raises. *)
Lemma Decrypt_raises_on_zero_ring_noise :
  let s := P [1; -1] in
  let e := P [3; 0] in
  let u := P [1; 0] in
  let m := P [0; 1] in
  let error := (P [0; 3], P [0; 0]) in
  let pk := (P [2; -1], P [-1; 0]) in
  let ct := (P [-1; -5], P [0; 1]) in
  PublicKeyGen poly_mul_naive (rlwe 11 2) s e (draws [6; 5]) = Ok pk /\
  Encrypt poly_mul_naive (rlwe 11 2) pk m error u (11 / 2) = Ok ct /\
  coefficients (noise poly_mul_naive s error e u) = [3; 0; 3] /\
  red 2 (coefficients (noise poly_mul_naive s error e u)) = [0; 0] /\
  Decrypt poly_mul_naive (rlwe 11 2) s ct error e u = Raise AssertionError.
Proof.
  cbv zeta. repeat split; reflexivity.
Qed.





Lemma CRTInteger_recover_witness :
  CRT.recover (CRT.from_integer (CRT.mkCRTModuli [5; 7; 8] 280) 78) = 78.
Proof.
  refine (proj2 (proj1 (proj2 (CRTInteger_recover_correct (2 ^ 60)))
                       [5; 7; 8] (CRT.mkCRTModuli [5; 7; 8] 280) 78 eq_refl _)).
  cbn. lia.
Defined.




Lemma poly_div_monic_correct_witness :
  exists quotient remainder,
    poly_div [1; 0; 0; 0; 5] [1; 0; 1] = Ok (quotient, remainder) /\
    poly_add (poly_mul_naive quotient [1; 0; 1]) remainder = [1; 0; 0; 0; 5] /\
    (length remainder < length [1; 0; 1])%nat.
Proof.
  refine (proj1 poly_div_monic_correct [1; 0; 0; 0; 5] [0; 1] _).
  simpl. lia.
Defined.

(* ------------------------------------------------------------------ *)
(** ** Small evaluations *)

Example poly_add_ex : poly_add [1; 2; 3] [10; 20] = [1; 12; 23].
Proof. reflexivity. Qed.

Example poly_mul_naive_ex : poly_mul_naive [1; 2] [1; 3] = [1; 5; 6].
Proof. reflexivity. Qed.

Example poly_div_ex :
  poly_div [1; 0; 0; 0; 5] [1; 0; 1] = Ok ([1; 0; -1], [6]).
Proof. reflexivity. Qed.

Example get_centered_remainder_ex :
  get_centered_remainder 8 11 = Ok (-3) /\ get_centered_remainder 3 6 = Ok 3.
Proof. split; reflexivity. Qed.

(* ------------------------------------------------------------------ *)
(** ** polynomial.py: evaluation and the algebra of the list operations *)

Lemma evaluate_acc l x acc :
  fold_left (fun result coeff => result * x + coeff) l acc
  = acc * x ^ Z.of_nat (length l)
    + fold_left (fun result coeff => result * x + coeff) l 0.
Proof.
  revert acc. induction l as [|c l IH]; intros acc.
  - simpl. ring.
  - cbn [fold_left length]. rewrite IH, (IH (0 * x + c)).
    rewrite Nat2Z.inj_succ, Z.pow_succ_r by lia. ring.
Qed.

Lemma evaluate_cons c l x :
  evaluate (mkPolynomial (c :: l)) x
  = c * x ^ Z.of_nat (length l) + evaluate (mkPolynomial l) x.
Proof.
  unfold evaluate. cbn [coefficients fold_left]. rewrite evaluate_acc. ring.
Qed.

Lemma evaluate_app a b x :
  evaluate (mkPolynomial (a ++ b)) x
  = evaluate (mkPolynomial a) x * x ^ Z.of_nat (length b) + evaluate (mkPolynomial b) x.
Proof.
  unfold evaluate. cbn [coefficients]. now rewrite fold_left_app, evaluate_acc.
Qed.

Lemma evaluate_zeros k x : evaluate (mkPolynomial (zeros k)) x = 0.
Proof.
  induction k as [|k IH]; [reflexivity|].
  change (zeros (S k)) with (0 :: zeros k). rewrite evaluate_cons, IH. ring.
Qed.

Lemma evaluate_pad m l x :
  evaluate (mkPolynomial (pad m l)) x = evaluate (mkPolynomial l) x.
Proof. unfold pad. rewrite evaluate_app, evaluate_zeros. ring. Qed.

Lemma evaluate_strip l x :
  evaluate (mkPolynomial (Py.strip_leading_zeros l)) x = evaluate (mkPolynomial l) x.
Proof.
  destruct (strip_split l) as [k Hk]. rewrite Hk at 2.
  rewrite evaluate_app, evaluate_zeros. ring.
Qed.

Lemma evaluate_zip_add a b x :
  length a = length b ->
  evaluate (mkPolynomial (zip_add a b)) x
  = evaluate (mkPolynomial a) x + evaluate (mkPolynomial b) x.
Proof.
  revert b. induction a as [|c a IH]; intros [|d b] H; simpl in H; try discriminate.
  - reflexivity.
  - cbn [zip_add]. rewrite !evaluate_cons, IH, length_zip_add by lia.
    replace (Nat.min (length a) (length b)) with (length a) by lia.
    replace (length b) with (length a) by lia. ring.
Qed.

Lemma evaluate_scale c l x :
  evaluate (mkPolynomial (scale c l)) x = c * evaluate (mkPolynomial l) x.
Proof.
  induction l as [|d l IH]; [cbn; ring|].
  cbn [scale map]. fold (scale c l). rewrite !evaluate_cons, IH, length_scale. ring.
Qed.

Lemma evaluate_poly_add a b x :
  evaluate (mkPolynomial (poly_add a b)) x
  = evaluate (mkPolynomial a) x + evaluate (mkPolynomial b) x.
Proof.
  rewrite poly_add_spec, evaluate_zip_add, !evaluate_pad; [reflexivity|].
  rewrite !pad_length; lia.
Qed.

Lemma evaluate_poly_mul_naive a b x :
  evaluate (mkPolynomial (poly_mul_naive a b)) x
  = evaluate (mkPolynomial a) x * evaluate (mkPolynomial b) x.
Proof.
  destruct b as [|b0 bt].
  { rewrite poly_mul_naive_nil_r, evaluate_zeros. cbn. ring. }
  induction a as [|a0 a IH].
  { rewrite poly_mul_naive_nil_l, evaluate_zeros. cbn. ring. }
  rewrite poly_mul_naive_cons, evaluate_cons, evaluate_zip_add.
  - rewrite IH, evaluate_app, evaluate_zeros, evaluate_scale, !evaluate_cons.
    rewrite length_zip_add, length_app, length_scale, length_zeros, poly_mul_naive_length.
    cbn [length].
    replace (Nat.min (length bt + length a) (length a + S (length bt) - 1))
      with (length a + length bt)%nat by lia.
    rewrite Nat2Z.inj_add, Z.pow_add_r by lia. ring.
  - rewrite length_app, length_scale, length_zeros, poly_mul_naive_length.
    cbn [length]. lia.
Qed.

(** X1: [evaluate] turns the list operations into integer arithmetic: the
    value of a sum is the sum of the values, and the value of a schoolbook
    product is the product of the values, at every point and for operands
    of any lengths. *)
Theorem evaluate_homomorphism p q x :
  evaluate (Polynomial_add p q) x = evaluate p x + evaluate q x /\
  evaluate (mkPolynomial (poly_mul_naive (coefficients p) (coefficients q))) x
  = evaluate p x * evaluate q x.
Proof.
  destruct p as [a], q as [b]. split.
  - apply evaluate_poly_add.
  - apply evaluate_poly_mul_naive.
Qed.

(** Two coefficient lists of the same length with the same residue modulo
    [x^n + 1], [n] their length, are equal. *)
Lemma red_inj a b :
  length a = length b -> red (length a) a = red (length a) b -> a = b.
Proof.
  intros Hlen H. rewrite (red_fixed _ a eq_refl) in H.
  now rewrite (red_fixed _ b (eq_sym Hlen)) in H.
Qed.

(** X2: [poly_add] is a commutative monoid on coefficient lists: the empty
    list is neutral, and sums may be reordered and regrouped, whatever the
    lengths of the operands. *)
Theorem poly_add_monoid a b c :
  poly_add [] a = a /\
  poly_add a b = poly_add b a /\
  poly_add (poly_add a b) c = poly_add a (poly_add b c).
Proof.
  split; [|split].
  - apply red_inj; [rewrite poly_add_length; simpl; lia|].
    rewrite red_poly_add. rewrite poly_add_length. cbn [length Nat.max].
    unfold red at 1. cbn [act]. apply vadd_zero_l, length_red.
  - apply red_inj; [rewrite !poly_add_length; lia|].
    rewrite !red_poly_add. apply vadd_comm.
  - apply red_inj; [rewrite !poly_add_length; lia|].
    rewrite !red_poly_add. apply vadd_assoc.
Qed.

(** X3: the schoolbook product does not depend on the order of its operands. *)
Theorem poly_mul_naive_comm a b : poly_mul_naive a b = poly_mul_naive b a.
Proof.
  apply red_inj; [rewrite !poly_mul_naive_length; lia|].
  now rewrite red_mul_comm, red_mul.
Qed.

(** X4: the schoolbook product is associative when the middle operand has a
    coefficient (with an empty middle operand the two sides may differ in
    length). *)
Theorem poly_mul_naive_assoc a b c :
  b <> [] ->
  poly_mul_naive (poly_mul_naive a b) c = poly_mul_naive a (poly_mul_naive b c).
Proof.
  intros Hb. apply red_inj.
  - rewrite !poly_mul_naive_length. destruct b; [contradiction | simpl; lia].
  - now rewrite !red_mul, act_mul.
Qed.

Lemma poly_mul_naive_assoc_witness :
  [1%Z] <> [] /\
  poly_mul_naive (poly_mul_naive [2; 3] [1]) [4; 5]
  = poly_mul_naive [2; 3] (poly_mul_naive [1] [4; 5]).
Proof.
  split; [discriminate|]. apply (poly_mul_naive_assoc [2; 3] [1] [4; 5]). discriminate.
Defined.

(** X5: the schoolbook product distributes over [poly_add], on either side. *)
Theorem poly_mul_naive_distr a b c :
  poly_mul_naive a (poly_add b c)
  = poly_add (poly_mul_naive a b) (poly_mul_naive a c) /\
  poly_mul_naive (poly_add b c) a
  = poly_add (poly_mul_naive b a) (poly_mul_naive c a).
Proof.
  assert (H : poly_mul_naive a (poly_add b c)
              = poly_add (poly_mul_naive a b) (poly_mul_naive a c)).
  { apply red_inj.
    - rewrite poly_add_length, !poly_mul_naive_length, poly_add_length. lia.
    - now rewrite red_poly_add, !red_mul, red_poly_add, act_vadd. }
  split; [exact H|].
  apply red_inj.
  - rewrite poly_add_length, !poly_mul_naive_length, poly_add_length. lia.
  - now rewrite red_poly_add, !red_mul_comm, red_poly_add, act_vadd.
Qed.

Lemma poly_mul_naive_const_r p k : poly_mul_naive p [k] = scale k p.
Proof.
  rewrite <- poly_mul_naive_const.
  apply red_inj; [rewrite !poly_mul_naive_length; simpl; lia|].
  now rewrite red_mul_comm, red_mul.
Qed.

Lemma poly_mul_naive_neg p : poly_mul_naive p [-1] = map Z.opp p.
Proof.
  rewrite poly_mul_naive_const_r. apply map_ext. intros x. lia.
Qed.

(** X6: multiplying by a one-coefficient polynomial, on either side, multiplies
    every coefficient by it and keeps their number; with [[-1]] it negates
    the polynomial, which is how [PublicKeyGen] forms [pk1 = -a]. *)
Theorem poly_mul_naive_constant c p :
  poly_mul_naive [c] p = map (Z.mul c) p /\
  poly_mul_naive p [c] = map (Z.mul c) p /\
  poly_mul_naive p [-1] = map Z.opp p.
Proof.
  split; [apply poly_mul_naive_const|].
  split; [apply poly_mul_naive_const_r | apply poly_mul_naive_neg].
Qed.

(* ------------------------------------------------------------------ *)
(** ** polynomial.py: the outcomes of [poly_div] *)

Lemma poly_div_quotient_zeros (dividend divisor : list Z) :
  (length divisor <= length dividend)%nat ->
  Py.replicate 0 (Py.len dividend - Py.len divisor + 1)
  = 0 :: zeros (length dividend - length divisor).
Proof.
  intros H. unfold Py.len. rewrite replicate_zeros.
  replace (Z.to_nat (Z.of_nat (length dividend) - Z.of_nat (length divisor) + 1))
    with (S (length dividend - length divisor)) by lia.
  reflexivity.
Qed.

(** An empty divisor: the first step reads [remainder[0]] and [divisor[0]]. *)
Lemma poly_div_nil_divisor (dividend : list Z) : poly_div dividend [] = Raise IndexError.
Proof.
  unfold poly_div. rewrite poly_div_quotient_zeros by (simpl; lia).
  cbn [length Py.for_range poly_div_step].
  destruct dividend as [|x r]; reflexivity.
Qed.

(** A divisor whose leading coefficient is zero: the first step divides by
    it. *)
Lemma poly_div_zero_lead (dividend dt : list Z) :
  (length (0%Z :: dt) <= length dividend)%nat ->
  poly_div dividend (0 :: dt) = Raise ZeroDivisionError.
Proof.
  intros H. unfold poly_div. rewrite poly_div_quotient_zeros by exact H.
  cbn [length Py.for_range poly_div_step].
  destruct dividend as [|x r]; [simpl in H; lia | reflexivity].
Qed.

Lemma poly_div_cases (dividend divisor quotient remainder : list Z) :
  poly_div dividend divisor = Ok (quotient, remainder) ->
  ((length dividend < length divisor)%nat /\
   quotient = [] /\ remainder = Py.strip_leading_zeros dividend) \/
  (exists d0 dt,
      divisor = d0 :: dt /\ d0 <> 0 /\ (length dt < length dividend)%nat /\
      let k := (length dividend - length dt)%nat in
      quotient = fst (div_steps k dividend (d0 :: dt)) /\
      remainder = Py.strip_leading_zeros (snd (div_steps k dividend (d0 :: dt)))).
Proof.
  intros H.
  destruct (Nat.lt_ge_cases (length dividend) (length divisor)) as [Hlt | Hge].
  - left. rewrite poly_div_short in H by exact Hlt. inversion H. auto.
  - right. destruct divisor as [|d0 dt].
    + rewrite poly_div_nil_divisor in H. discriminate.
    + destruct (Z.eq_dec d0 0) as [-> | Hd0].
      * rewrite poly_div_zero_lead in H by exact Hge. discriminate.
      * simpl in Hge. rewrite poly_div_spec in H by (auto; lia).
        inversion H. exists d0, dt. repeat split; auto.
Qed.

(** X7: [poly_div] on every pair of lists: a dividend shorter than the divisor
    is returned as the remainder, with an empty quotient and without a look
    at the divisor; otherwise an empty divisor raises [IndexError], a leading
    coefficient zero raises [ZeroDivisionError], and any other divisor gives a
    quotient of [len(dividend) - len(divisor) + 1] coefficients. *)
Theorem poly_div_outcome (dividend divisor : list Z) :
  ((length dividend < length divisor)%nat ->
   poly_div dividend divisor = Ok ([], Py.strip_leading_zeros dividend)) /\
  ((length divisor <= length dividend)%nat ->
   (divisor = [] -> poly_div dividend divisor = Raise IndexError) /\
   (hd_error divisor = Some 0 -> poly_div dividend divisor = Raise ZeroDivisionError) /\
   (forall d0, hd_error divisor = Some d0 -> d0 <> 0 ->
      exists quotient remainder,
        poly_div dividend divisor = Ok (quotient, remainder) /\
        Py.len quotient = Py.len dividend - Py.len divisor + 1 /\
        (length remainder <= length dividend)%nat)).
Proof.
  split; [apply poly_div_short|].
  intros Hge. split; [|split].
  - intros ->. apply poly_div_nil_divisor.
  - destruct divisor as [|d0 dt]; [discriminate|].
    intros H. inversion H; subst. now apply poly_div_zero_lead.
  - intros d0 H Hd0. destruct divisor as [|d dt]; [discriminate|].
    inversion H; subst d. simpl in Hge.
    rewrite poly_div_spec by (auto; lia).
    pose proof (div_steps_length (length dividend - length dt) dividend d0 dt
                  ltac:(lia)) as [Hq Hr].
    eexists. eexists. split; [reflexivity|]. split.
    + unfold Py.len. rewrite Hq. simpl length. lia.
    + pose proof (strip_length
                    (snd (div_steps (length dividend - length dt) dividend (d0 :: dt)))).
      lia.
Qed.

(** X8: whenever [poly_div] returns, whatever the divisor (monic or not:
    the quotient digits are floor quotients), the dividend is
    [quotient * divisor + remainder] at every point. *)
Theorem poly_div_evaluate dividend divisor quotient remainder x :
  poly_div dividend divisor = Ok (quotient, remainder) ->
  evaluate (mkPolynomial dividend) x
  = evaluate (mkPolynomial quotient) x * evaluate (mkPolynomial divisor) x
    + evaluate (mkPolynomial remainder) x.
Proof.
  intros H. apply poly_div_cases in H.
  destruct H as [(_ & -> & ->) | (d0 & dt & -> & Hd0 & Hlen & Hq & Hr)].
  - rewrite evaluate_strip. cbn. ring.
  - cbv zeta in Hq, Hr. subst quotient remainder.
    set (k := (length dividend - length dt)%nat).
    pose proof (div_steps_identity k dividend d0 dt ltac:(lia)) as Hid.
    pose proof (div_steps_length k dividend d0 dt ltac:(lia)) as [Hlq Hlr].
    rewrite evaluate_strip, <- evaluate_poly_mul_naive, <- evaluate_zip_add.
    + now rewrite Hid.
    + rewrite poly_mul_naive_length, Hlq, Hlr. simpl length. lia.
Qed.

Lemma poly_div_evaluate_witness :
  poly_div [6; 5; 4] [4; 1] = Ok ([1; 1], [2; 0; 3]) /\
  evaluate (mkPolynomial [6; 5; 4]) 10
  = evaluate (mkPolynomial [1; 1]) 10 * evaluate (mkPolynomial [4; 1]) 10
    + evaluate (mkPolynomial [2; 0; 3]) 10.
Proof.
  split; [reflexivity|].
  apply (poly_div_evaluate [6; 5; 4] [4; 1] [1; 1] [2; 0; 3] 10). reflexivity.
Defined.

(* ------------------------------------------------------------------ *)
(** ** polynomial.py: reductions and evaluation *)

Lemma evaluate_cyclo n x :
  (1 <= n)%nat -> evaluate (mkPolynomial (cyclo n)) x = x ^ Z.of_nat n + 1.
Proof.
  intros H. unfold cyclo. cbn [app]. rewrite evaluate_cons, evaluate_app, evaluate_zeros.
  rewrite length_app, length_zeros. cbn [length].
  replace (n - 1 + 1)%nat with n by lia.
  unfold evaluate. cbn [coefficients fold_left]. ring.
Qed.

(** The residue modulo [x^n + 1] differs from the polynomial by a multiple
    of [x^n + 1] at every point. *)
Lemma evaluate_red n p x :
  (1 <= n)%nat ->
  (x ^ Z.of_nat n + 1 | evaluate (mkPolynomial p) x - evaluate (mkPolynomial (red n p)) x).
Proof.
  intros Hn. destruct (Nat.lt_ge_cases (length p) n) as [Hlt | Hge].
  - rewrite red_short, evaluate_pad by lia. rewrite Z.sub_diag. apply Z.divide_0_r.
  - assert (Hdt : length (zeros (n - 1) ++ [1]) = n)
      by (rewrite length_app, length_zeros; simpl; lia).
    destruct (poly_div_monic_spec p (zeros (n - 1) ++ [1]) ltac:(lia))
      as (quo & rem & _ & _ & Hid & Hrem & _).
    change (1 :: zeros (n - 1) ++ [1]) with (cyclo n) in Hid.
    rewrite (red_division n quo rem p Hn ltac:(lia) Hid), evaluate_pad.
    rewrite <- Hid at 1.
    rewrite evaluate_poly_add, evaluate_poly_mul_naive, evaluate_cyclo by exact Hn.
    exists (evaluate (mkPolynomial quo) x). ring.
Qed.

(** X9: for a ring built by [PolynomialRing(n, modulus)],
    [reduce_coefficients_by_cyclo] changes the value of the polynomial at any
    integer [x] by a multiple of [x^n + 1]. *)
Theorem reduce_coefficients_by_cyclo_evaluate nz m ring p p' x :
  PolynomialRing_init nz m = Ok ring ->
  reduce_coefficients_by_cyclo p (denominator ring) = Ok p' ->
  (x ^ nz + 1 | evaluate p x - evaluate p' x).
Proof.
  intros Hring Hp. destruct p as [p].
  destruct (PolynomialRing_init_spec _ _ _ Hring) as [Hpow ->].
  apply is_power_of_two_pos in Hpow. cbn [denominator] in Hp.
  rewrite reduce_coefficients_by_cyclo_spec in Hp by lia.
  inversion Hp; subst p'.
  replace nz with (Z.of_nat (Z.to_nat nz)) at 1 by lia.
  apply evaluate_red. lia.
Qed.

Lemma reduce_coefficients_by_cyclo_evaluate_witness :
  PolynomialRing_init 2 7 = Ok (mkPolynomialRing [1; 0; 1] 7 2) /\
  reduce_coefficients_by_cyclo (mkPolynomial [1; 2; 3; 4]) [1; 0; 1]
  = Ok (mkPolynomial [2; 2]) /\
  (3 ^ 2 + 1 | evaluate (mkPolynomial [1; 2; 3; 4]) 3 - evaluate (mkPolynomial [2; 2]) 3).
Proof.
  split; [reflexivity|]. split; [reflexivity|].
  apply (reduce_coefficients_by_cyclo_evaluate 2 7 (mkPolynomialRing [1; 0; 1] 7 2)
           (mkPolynomial [1; 2; 3; 4]) (mkPolynomial [2; 2]) 3); reflexivity.
Defined.

Lemma get_centered_remainder_inv x m c :
  get_centered_remainder x m = Ok c -> m <> 0 /\ c = centered m x.
Proof.
  intros H. destruct (Z.eq_dec m 0) as [-> | Hm].
  - unfold get_centered_remainder, Py.mod_ in H. simpl in H. discriminate.
  - rewrite get_centered_remainder_spec in H by exact Hm. inversion H. auto.
Qed.

(** X10: [reduce_coefficients_by_modulus] keeps the number of coefficients and
    changes the value of the polynomial at any integer by a multiple of the
    modulus. *)
Theorem reduce_coefficients_by_modulus_evaluate p m p' x :
  reduce_coefficients_by_modulus p m = Ok p' ->
  Py.len (coefficients p') = Py.len (coefficients p) /\
  (m | evaluate p' x - evaluate p x).
Proof.
  destruct p as [l]. unfold reduce_coefficients_by_modulus. cbn [coefficients].
  destruct (Py.mapM _ l) as [l'|] eqn:Hmap; cbn [bind]; [|discriminate].
  intros H. inversion H; subst p'. cbn [coefficients]. clear H.
  split; [unfold Py.len; now rewrite (mapM_length _ _ _ Hmap)|].
  apply mapM_Forall2 in Hmap.
  induction Hmap as [|c c' l l' Hc Hl IH].
  - exists 0. reflexivity.
  - apply get_centered_remainder_inv in Hc. destruct Hc as [_ ->].
    rewrite !evaluate_cons. rewrite (Forall2_length Hl).
    destruct IH as [k Hk]. destruct (centered_cong m c) as [j Hj].
    exists (j * x ^ Z.of_nat (length l') + k).
    replace (centered m c) with (c + j * m) by lia. lia.
Qed.

Lemma reduce_coefficients_by_modulus_evaluate_witness :
  reduce_coefficients_by_modulus (mkPolynomial [9; -4; 3]) 7 = Ok (mkPolynomial [2; 3; 3]) /\
  Py.len [2; 3; 3] = Py.len [9; -4; 3] /\
  (7 | evaluate (mkPolynomial [2; 3; 3]) 10 - evaluate (mkPolynomial [9; -4; 3]) 10).
Proof.
  split; [reflexivity|].
  apply (reduce_coefficients_by_modulus_evaluate
           (mkPolynomial [9; -4; 3]) 7 (mkPolynomial [2; 3; 3]) 10).
  reflexivity.
Defined.

(** A ring may be built with modulus zero; every reduction into it raises
    [ZeroDivisionError]. *)
Lemma reduce_in_ring_zero_modulus nz ring p :
  PolynomialRing_init nz 0 = Ok ring ->
  reduce_in_ring p ring = Raise ZeroDivisionError.
Proof.
  intros Hring. destruct p as [p].
  destruct (PolynomialRing_init_spec _ _ _ Hring) as [Hpow ->].
  apply is_power_of_two_pos in Hpow.
  unfold reduce_in_ring. cbn [denominator modulus].
  rewrite reduce_coefficients_by_cyclo_spec by lia. cbn [bind].
  unfold reduce_coefficients_by_modulus. cbn [coefficients].
  pose proof (length_red (Z.to_nat nz) p) as Hlen.
  destruct (red (Z.to_nat nz) p) as [|c l]; [simpl in Hlen; lia|].
  reflexivity.
Qed.

Lemma list_eq_spec l1 l2 : list_eq l1 l2 = true <-> l1 = l2.
Proof.
  revert l2. induction l1 as [|x l1 IH]; intros [|y l2]; simpl;
    try (split; [discriminate | discriminate]); [tauto|].
  rewrite andb_true_iff, Z.eqb_eq, IH. split.
  - intros [-> ->]. reflexivity.
  - intros H. inversion H. auto.
Qed.

Lemma centered_congruent m x y : (m | x - y) -> centered m x = centered m y.
Proof.
  intros [k Hk]. replace x with (y + m * k) by lia. apply centered_add_mul.
Qed.

(** X11: reduction into a ring gives canonical forms: two polynomials reduce to
    objects that compare equal exactly when their residues modulo [x^n + 1]
    are congruent coefficient by coefficient modulo the modulus. *)
Theorem reduce_in_ring_canonical nz m ring p1 p2 r1 r2 :
  PolynomialRing_init nz m = Ok ring ->
  reduce_in_ring p1 ring = Ok r1 ->
  reduce_in_ring p2 ring = Ok r2 ->
  (Polynomial_eq r1 r2 = true <->
   vcong (Z.to_nat nz) m (red (Z.to_nat nz) (coefficients p1))
                         (red (Z.to_nat nz) (coefficients p2))).
Proof.
  intros Hring H1 H2. destruct p1 as [p1], p2 as [p2].
  destruct (PolynomialRing_init_spec _ _ _ Hring) as [Hpow ->].
  apply is_power_of_two_pos in Hpow. cbn [coefficients].
  assert (Hm : m <> 0).
  { intros ->. rewrite (reduce_in_ring_zero_modulus nz _ _ Hring) in H1. discriminate. }
  rewrite reduce_in_ring_spec in H1, H2 by (auto; lia).
  inversion H1; inversion H2; subst r1 r2. clear H1 H2.
  unfold Polynomial_eq. cbn [coefficients]. rewrite list_eq_spec.
  generalize (length_red (Z.to_nat nz) p1) (length_red (Z.to_nat nz) p2).
  generalize (red (Z.to_nat nz) p1) (red (Z.to_nat nz) p2). intros u v Hu Hv.
  split.
  - intros Heq i Hi.
    assert (E : centered m (nth i u 0) = centered m (nth i v 0)).
    { rewrite <- !nth_map_lt by lia. now rewrite Heq. }
    destruct (centered_cong m (nth i u 0)) as [j Hj].
    destruct (centered_cong m (nth i v 0)) as [k Hk].
    exists (k - j). lia.
  - intros Hc. apply (list_eq_nth (Z.to_nat nz)); rewrite ?length_map; auto.
    intros i Hi. rewrite !nth_map_lt by lia.
    apply centered_congruent, Hc, Hi.
Qed.

Lemma reduce_in_ring_canonical_witness :
  PolynomialRing_init 2 7 = Ok (mkPolynomialRing [1; 0; 1] 7 2) /\
  reduce_in_ring (mkPolynomial [1; 2; 3]) (mkPolynomialRing [1; 0; 1] 7 2)
  = Ok (mkPolynomial [2; 2]) /\
  reduce_in_ring (mkPolynomial [9; 9]) (mkPolynomialRing [1; 0; 1] 7 2)
  = Ok (mkPolynomial [2; 2]) /\
  (Polynomial_eq (mkPolynomial [2; 2]) (mkPolynomial [2; 2]) = true <->
   vcong 2 7 (red 2 [1; 2; 3]) (red 2 [9; 9])).
Proof.
  split; [reflexivity|]. split; [reflexivity|]. split; [reflexivity|].
  apply (reduce_in_ring_canonical 2 7 (mkPolynomialRing [1; 0; 1] 7 2)
           (mkPolynomial [1; 2; 3]) (mkPolynomial [9; 9])
           (mkPolynomial [2; 2]) (mkPolynomial [2; 2])); reflexivity.
Defined.

(* ------------------------------------------------------------------ *)
(** ** polynomial.py: the two representations of a residue *)

Lemma get_standard_form_pos x m : 0 < m -> get_standard_form x m = Ok (x mod m).
Proof.
  intros Hm. unfold get_standard_form, Py.mod_.
  destruct (Z.eqb_spec m 0); [lia|]. cbn [bind].
  pose proof (Z.mod_pos_bound x m Hm).
  destruct (Z.leb_spec 0 (x mod m)); [reflexivity | lia].
Qed.

(** X12: [get_standard_form]: division by zero for a zero modulus; for a
    positive modulus the representative in [[0, modulus)]; for a negative
    modulus a value that is zero or lies below the modulus. *)
Theorem get_standard_form_outcome x m :
  (m = 0 -> get_standard_form x m = Raise ZeroDivisionError) /\
  (0 < m -> exists r, get_standard_form x m = Ok r /\ 0 <= r < m /\ (m | r - x)) /\
  (m < 0 -> exists r, get_standard_form x m = Ok r /\ (r = 0 \/ 2 * m < r < m) /\
                      (m | r - x)).
Proof.
  split; [|split].
  - intros ->. reflexivity.
  - intros Hm. exists (x mod m). split; [now apply get_standard_form_pos|].
    split; [now apply Z.mod_pos_bound|].
    exists (- (x / m)). pose proof (Z.div_mod x m ltac:(lia)). lia.
  - intros Hm. unfold get_standard_form, Py.mod_.
    destruct (Z.eqb_spec m 0); [lia|]. cbn [bind].
    pose proof (Z.mod_neg_bound x m Hm) as Hb.
    pose proof (Z.div_mod x m ltac:(lia)) as Hdm.
    destruct (Z.leb_spec 0 (x mod m)).
    + exists (x mod m). split; [reflexivity|]. split; [lia|].
      exists (- (x / m)). lia.
    + exists (x mod m + m). split; [reflexivity|]. split; [lia|].
      exists (1 - x / m). lia.
Qed.



(** X14: centered remainders may be taken before or after adding and
    multiplying: reducing the operands first does not change the reduced sum
    or product (and a zero modulus raises on both sides). *)
Theorem get_centered_remainder_arith a b m :
  (ca <- get_centered_remainder a m ;;
   cb <- get_centered_remainder b m ;;
   get_centered_remainder (ca + cb) m) = get_centered_remainder (a + b) m /\
  (ca <- get_centered_remainder a m ;;
   cb <- get_centered_remainder b m ;;
   get_centered_remainder (ca * cb) m) = get_centered_remainder (a * b) m.
Proof.
  destruct (Z.eq_dec m 0) as [-> | Hm]; [split; reflexivity|].
  rewrite !get_centered_remainder_spec by exact Hm. cbn [bind].
  rewrite !get_centered_remainder_spec by exact Hm.
  destruct (centered_cong m a) as [j Hj]. destruct (centered_cong m b) as [k Hk].
  split; f_equal; apply centered_congruent.
  - exists (j + k). lia.
  - exists (j * k * m + j * b + k * a).
    replace (centered m a) with (a + j * m) by lia.
    replace (centered m b) with (b + k * m) by lia. ring.
Qed.

(* ------------------------------------------------------------------ *)
(** ** polynomial.py: [PolynomialRing] *)

(** X15: [PolynomialRing(n, modulus)] is built exactly when [n] is a power of
    two, and fails its assertion otherwise; the modulus is not checked.  The
    ring stores [x^n + 1] as [n + 1] coefficients. *)
Theorem PolynomialRing_init_outcome nz m :
  (returns (PolynomialRing_init nz m) <-> exists k, 0 <= k /\ nz = 2 ^ k) /\
  (~ (exists k, 0 <= k /\ nz = 2 ^ k) ->
   PolynomialRing_init nz m = Raise AssertionError) /\
  (forall ring, PolynomialRing_init nz m = Ok ring ->
     modulus ring = m /\ ring_n ring = nz /\
     Py.len (denominator ring) = nz + 1 /\
     forall x, evaluate (mkPolynomial (denominator ring)) x = x ^ nz + 1).
Proof.
  rewrite <- is_power_of_two_spec.
  split; [|split].
  - unfold PolynomialRing_init, Py.assert.
    destruct (is_power_of_two nz); cbn [bind]; split; intros H;
      try reflexivity; try discriminate.
    + eexists. reflexivity.
    + destruct H as [r H]. discriminate.
  - intros H. unfold PolynomialRing_init, Py.assert.
    destruct (is_power_of_two nz); [now elim H | reflexivity].
  - intros ring H. destruct (PolynomialRing_init_spec _ _ _ H) as [Hpow ->].
    apply is_power_of_two_pos in Hpow. cbn [modulus ring_n denominator].
    repeat split.
    + unfold Py.len. rewrite length_cyclo by lia. lia.
    + intros x. rewrite evaluate_cyclo by lia. f_equal. f_equal. lia.
Qed.

Lemma cyclo_inj n1 n2 :
  (1 <= n1)%nat -> (1 <= n2)%nat -> cyclo n1 = cyclo n2 -> n1 = n2.
Proof.
  intros H1 H2 H. apply (f_equal (@length Z)) in H.
  rewrite !length_cyclo in H by assumption. lia.
Qed.

(** X16: two rings built by the constructor compare equal exactly when they were
    built from the same [n] and the same modulus ([__eq__] compares the
    stored [x^n + 1] and the modulus). *)
Theorem PolynomialRing_eq_spec n1 m1 n2 m2 ring1 ring2 :
  PolynomialRing_init n1 m1 = Ok ring1 ->
  PolynomialRing_init n2 m2 = Ok ring2 ->
  (PolynomialRing_eq ring1 ring2 = true <-> n1 = n2 /\ m1 = m2).
Proof.
  intros H1 H2.
  destruct (PolynomialRing_init_spec _ _ _ H1) as [Hp1 ->].
  destruct (PolynomialRing_init_spec _ _ _ H2) as [Hp2 ->].
  apply is_power_of_two_pos in Hp1, Hp2.
  unfold PolynomialRing_eq. cbn [denominator modulus].
  rewrite andb_true_iff, list_eq_spec, Z.eqb_eq. split.
  - intros [Hc Hm]. split; [|exact Hm].
    apply cyclo_inj in Hc; lia.
  - intros [-> ->]. auto.
Qed.

Lemma PolynomialRing_eq_spec_witness :
  PolynomialRing_init 2 7 = Ok (mkPolynomialRing [1; 0; 1] 7 2) /\
  PolynomialRing_init 4 7 = Ok (mkPolynomialRing [1; 0; 0; 0; 1] 7 4) /\
  (PolynomialRing_eq (mkPolynomialRing [1; 0; 1] 7 2)
                     (mkPolynomialRing [1; 0; 0; 0; 1] 7 4) = true
   <-> 2 = 4 /\ 7 = 7).
Proof.
  split; [reflexivity|]. split; [reflexivity|].
  apply (PolynomialRing_eq_spec 2 7 4 7); reflexivity.
Defined.

(* ------------------------------------------------------------------ *)
(** ** Sampling *)





Lemma ring_reduce_fixed n m p :
  0 < m -> length p = n -> (forall c, In c p -> - m < 2 * c <= m) ->
  ring_reduce n m p = p.
Proof.
  intros Hm Hlen Hr. unfold ring_reduce. rewrite red_fixed by exact Hlen.
  rewrite <- (map_id p) at 2. apply map_ext_in. intros c Hc.
  apply centered_id; auto.
Qed.



Lemma random_choice_ternary size entropy :
  0 <= size ->
  exists l, Np.random_choice [-1; 0; 1] size entropy = Ok l /\
            length l = Z.to_nat size /\ ternary l.
Proof.
  intros Hs. unfold Np.random_choice.
  destruct (Z.ltb_spec size 0); [lia|].
  change (Py.len [-1; 0; 1]) with 3. cbn [Z.eqb andb].
  eexists. split; [reflexivity|]. split; [now rewrite length_map, length_seq|].
  intros c Hc. apply in_map_iff in Hc. destruct Hc as [i [<- _]].
  pose proof (Z.mod_pos_bound (entropy i) 3 ltac:(lia)) as Hb.
  assert (E : entropy i mod 3 = 0 \/ entropy i mod 3 = 1 \/ entropy i mod 3 = 2) by lia.
  destruct E as [-> | [-> | ->]]; cbn; auto.
Qed.

(** X19: for validated parameters, [SecretKeyGen] returns a polynomial of [n]
    coefficients, each [-1], [0] or [1]; it is an element of [R_q] as it
    stands: reducing it in [R_q] changes nothing. *)
Theorem SecretKeyGen_ternary nz q t d rlwe entropy :
  RLWE_init nz q t d = Ok rlwe ->
  exists s,
    SecretKeyGen rlwe entropy = Ok s /\
    Py.len (coefficients s) = nz /\
    ternary (coefficients s) /\
    reduce_in_ring s (Rq rlwe) = Ok s.
Proof.
  intros Hrlwe.
  destruct (RLWE_init_spec _ _ _ _ _ Hrlwe) as (Htq & Hn & Hq & Ht & _ & Hg & Hr).
  pose proof (is_power_of_two_pos _ Hn) as Hpos.
  assert (Hq3 : 3 <= q).
  { destruct (Z.eq_dec q t) as [-> | Hne]; [rewrite Z.gcd_diag in Hg; lia | lia]. }
  unfold SecretKeyGen, SampleFromTernaryDistribution.
  replace (n rlwe) with nz by (rewrite Hr; reflexivity).
  destruct (random_choice_ternary nz entropy ltac:(lia)) as (l & -> & Hlen & Hter).
  cbn [bind]. rewrite map_id. exists (mkPolynomial l). cbn [coefficients].
  split; [reflexivity|]. split; [unfold Py.len; lia|]. split; [exact Hter|].
  rewrite (reduce_in_Rq nz q t d rlwe Hrlwe). do 2 f_equal.
  apply ring_reduce_fixed; [lia | exact Hlen |].
  intros c Hc. destruct (Hter c Hc) as [-> | [-> | ->]]; lia.
Qed.

Lemma SecretKeyGen_ternary_witness :
  exists s,
    SecretKeyGen (Example.rlwe 11 2) (fun i => Z.of_nat i) = Ok s /\
    Py.len (coefficients s) = 2 /\
    ternary (coefficients s) /\
    reduce_in_ring s (Rq (Example.rlwe 11 2)) = Ok s.
Proof.
  apply (SecretKeyGen_ternary 2 11 2 Example.gaussian (Example.rlwe 11 2)
           (fun i => Z.of_nat i)).
  reflexivity.
Defined.

(* ------------------------------------------------------------------ *)
(** ** bfv.py: invariants of the scheme *)

Lemma poly_add_comm a b : poly_add a b = poly_add b a.
Proof.
  apply red_inj; [rewrite !poly_add_length; lia|].
  rewrite !red_poly_add. apply vadd_comm.
Qed.


Lemma in_ring_ring_reduce n m p :
  0 < m -> in_ring n m (mkPolynomial (ring_reduce n m p)).
Proof.
  intros Hm. split; cbn [coefficients]; [apply length_ring_reduce|].
  intros c Hc. unfold ring_reduce in Hc. apply in_map_iff in Hc.
  destruct Hc as [x [<- _]]. now apply centered_range.
Qed.

(** Congruent residues have the same reduction. *)
Lemma ring_reduce_congr n m p p' :
  vcong n m (red n p) (red n p') -> ring_reduce n m p = ring_reduce n m p'.
Proof.
  intros H. unfold ring_reduce.
  apply (list_eq_nth n); rewrite ?length_map, ?length_red; auto.
  intros i Hi. rewrite !nth_map_lt by (rewrite length_red; exact Hi).
  apply centered_congruent, H, Hi.
Qed.

Lemma ring_reduce_add_l n m a b :
  ring_reduce n m (poly_add (ring_reduce n m a) b) = ring_reduce n m (poly_add a b).
Proof.
  apply ring_reduce_congr. rewrite !red_poly_add, red_ring_reduce.
  apply vcong_vadd; [apply vcong_ring_reduce | apply vcong_refl].
Qed.

Lemma ring_reduce_add_r n m a b :
  ring_reduce n m (poly_add a (ring_reduce n m b)) = ring_reduce n m (poly_add a b).
Proof. now rewrite poly_add_comm, ring_reduce_add_l, poly_add_comm. Qed.

Lemma ring_reduce_add_zeros n m a k :
  ring_reduce n m (poly_add a (zeros k)) = ring_reduce n m a.
Proof.
  unfold ring_reduce. f_equal. rewrite red_poly_add.
  unfold red at 2. rewrite act_zeros. apply vadd_zero_r, length_red.
Qed.

Section SchemeInvariants.

Variable poly_mul : list Z -> list Z -> list Z.
Variables (nz q t : Z) (d : DiscreteGaussian) (rlwe : RLWE).
Hypothesis Hrlwe : RLWE_init nz q t d = Ok rlwe.

Local Abbreviation N := (Z.to_nat nz).


Lemma reduce_in_Rq' p :
  reduce_in_ring p (Rq rlwe)
  = Ok (mkPolynomial (ring_reduce N q (coefficients p))).
Proof. destruct p as [p]. apply (reduce_in_Rq nz q t d rlwe Hrlwe). Qed.




(** X23: homomorphic addition is associative: the intermediate reductions into
    [R_q] do not change the final sum. *)
Theorem EvalAdd_assoc c1 c2 c3 :
  (c12 <- EvalAdd rlwe c1 c2 ;; EvalAdd rlwe c12 c3)
  = (c23 <- EvalAdd rlwe c2 c3 ;; EvalAdd rlwe c1 c23).
Proof.
  destruct c1 as [[a0] [a1]], c2 as [[b0] [b1]], c3 as [[c0] [c1]].
  rewrite !(EvalAdd_eval nz q t d rlwe Hrlwe). cbn [bind].
  rewrite !(EvalAdd_eval nz q t d rlwe Hrlwe).
  rewrite !ring_reduce_add_l, !ring_reduce_add_r.
  assert (A : forall x y z, poly_add (poly_add x y) z = poly_add x (poly_add y z)).
  { intros x y z. apply red_inj; [rewrite !poly_add_length; lia|].
    rewrite !red_poly_add. apply vadd_assoc. }
  now rewrite !A.
Qed.

(** X24: whatever [Decrypt] returns is an element of [R_t]: [n] coefficients in
    [(-t/2, t/2]]. *)
Theorem Decrypt_in_ring s ct error e u m :
  Decrypt poly_mul rlwe s ct error e u = Ok m -> in_ring N t m.
Proof.
  destruct (rlwe_facts nz q t d rlwe Hrlwe) as (_ & _ & Ht & _).
  destruct s as [s], ct as [[ct0] [ct1]].
  rewrite (Decrypt_steps poly_mul nz q t d rlwe Hrlwe).
  destruct (forallb _ _); [|discriminate].
  intros H. inversion H. apply in_ring_ring_reduce. lia.
Qed.

(** X25: [EncryptConst] is [Encrypt] with error polynomials that are zero, of
    any number of coefficients. *)
Theorem EncryptConst_is_Encrypt_without_error public_key m u delta k0 k1 :
  EncryptConst poly_mul rlwe public_key m u delta
  = Encrypt poly_mul rlwe public_key m
            (mkPolynomial (zeros k0), mkPolynomial (zeros k1)) u delta.
Proof.
  unfold Encrypt, EncryptConst. rewrite !reduce_in_Rq'. cbn [bind fst snd].
  unfold Polynomial_add. cbn [coefficients].
  now rewrite !ring_reduce_add_zeros.
Qed.

End SchemeInvariants.




Lemma EvalAdd_assoc_witness :
  (c12 <- EvalAdd (rlwe 127 7) (P [60; 60], P [1; 2]) (P [60; -60], P [3; 4]) ;;
   EvalAdd (rlwe 127 7) c12 (P [10; -10], P [5; 6]))
  = (c23 <- EvalAdd (rlwe 127 7) (P [60; -60], P [3; 4]) (P [10; -10], P [5; 6]) ;;
     EvalAdd (rlwe 127 7) (P [60; 60], P [1; 2]) c23).
Proof.
  exact (EvalAdd_assoc 2 127 7 gaussian (rlwe 127 7) eq_refl
           (P [60; 60], P [1; 2]) (P [60; -60], P [3; 4]) (P [10; -10], P [5; 6])).
Defined.

Lemma Decrypt_in_ring_witness :
  Decrypt poly_mul_naive (rlwe 127 7) (P [1; -1]) (P [35; -54], P [0; 2])
          (P [1; 0], P [0; 1]) (P [1; -1]) (P [1; 0]) = Ok (P [2; -3]) /\
  in_ring 2 7 (P [2; -3]).
Proof.
  split; [reflexivity|].
  apply (Decrypt_in_ring poly_mul_naive 2 127 7 gaussian (rlwe 127 7) eq_refl
           (P [1; -1]) (P [35; -54], P [0; 2]) (P [1; 0], P [0; 1])
           (P [1; -1]) (P [1; 0]) (P [2; -3])).
  reflexivity.
Defined.

Lemma EncryptConst_is_Encrypt_without_error_witness :
  EncryptConst poly_mul_naive (rlwe 127 7) (P [0; -2], P [-1; 0]) (P [2; -3]) (P [1; 0]) 18
  = Encrypt poly_mul_naive (rlwe 127 7) (P [0; -2], P [-1; 0]) (P [2; -3])
            (mkPolynomial (zeros 1), mkPolynomial (zeros 2)) (P [1; 0]) 18.
Proof.
  exact (EncryptConst_is_Encrypt_without_error poly_mul_naive 2 127 7 gaussian (rlwe 127 7)
           eq_refl (P [0; -2], P [-1; 0]) (P [2; -3]) (P [1; 0]) 18 1%nat 2%nat).
Defined.

(* ------------------------------------------------------------------ *)
(** ** bfv.py: the public key and error-free encryption *)





(* ------------------------------------------------------------------ *)
(** ** bfv.py: how large the noise can get *)




















(* ------------------------------------------------------------------ *)
(** ** polynomial.py: the size of the transform in [poly_mul] *)

Lemma next_power_of_two_pow fuel : forall (j : nat) product_len,
  let n := FFT.next_power_of_two fuel (2 ^ Z.of_nat j) product_len in
  (exists k : nat, n = 2 ^ Z.of_nat k) /\
  (n = 2 ^ Z.of_nat j \/ n < 2 * product_len).
Proof.
  induction fuel as [|fuel IH]; intros j L; cbv zeta.
  - cbn [FFT.next_power_of_two]. split; [now exists j | now left].
  - cbn [FFT.next_power_of_two].
    destruct (Z.ltb_spec (2 ^ Z.of_nat j) L) as [Hlt | Hge].
    + replace (2 ^ Z.of_nat j * 2) with (2 ^ Z.of_nat (S j))
        by (rewrite Nat2Z.inj_succ, Z.pow_succ_r by lia; ring).
      destruct (IH (S j) L) as [Hk Hn]. split; [exact Hk|].
      right. destruct Hn as [-> | Hn]; [|exact Hn].
      rewrite Nat2Z.inj_succ, Z.pow_succ_r by lia. lia.
    + split; [now exists j | now left].
Qed.

(** X29: the loop [n = 1; while n < product_len: n *= 2] of [poly_mul] stops at
    a power of two that is at least [product_len] and, unless it is [1],
    less than twice [product_len]. *)
Theorem next_power_of_two_least product_len :
  let n := FFT.next_power_of_two (Z.to_nat product_len) 1 product_len in
  (exists k : nat, n = 2 ^ Z.of_nat k) /\
  product_len <= n /\
  (n = 1 \/ n < 2 * product_len).
Proof.
  cbv zeta.
  destruct (next_power_of_two_pow (Z.to_nat product_len) 0 product_len) as [Hk Hn].
  change (2 ^ Z.of_nat 0) with 1 in Hk, Hn.
  split; [exact Hk|]. split; [apply next_power_of_two_reached | exact Hn].
Qed.

Lemma length_slice_to {A} (l : list A) (stop : Z) :
  - Py.len l <= stop < 0 ->
  length (Py.slice_to l stop) = Z.to_nat (Py.len l + stop).
Proof.
  intros H. unfold Py.slice_to. destruct (Z.ltb_spec stop 0); [|lia].
  rewrite length_firstn. unfold Py.len in *. lia.
Qed.

Section TransformLength.

Variable complex : Type.
Variable recursive_fft : list Z -> list complex.
Variable recursive_ifft : list complex -> list complex.
Variable cmul : complex -> complex -> complex.
Variable real : complex -> Q.

(** The transform and its inverse return as many values as they are
    given, on an input whose length is a power of two. *)
Hypothesis recursive_fft_length : forall l (k : nat),
  Py.len l = 2 ^ Z.of_nat k -> length (recursive_fft l) = length l.
Hypothesis recursive_ifft_length : forall l (k : nat),
  Py.len l = 2 ^ Z.of_nat k -> length (recursive_ifft l) = length l.

(** X30: for operands that both have a coefficient, [poly_mul] hands lists of
    one and the same power-of-two length to the transform; with a transform
    that keeps that length, it returns (no index is out of range) a list of
    [len(poly1) + len(poly2) - 1] coefficients. *)
Theorem poly_mul_length poly1 poly2 :
  poly1 <> [] -> poly2 <> [] ->
  exists product_coeffs,
    FFT.poly_mul complex recursive_fft recursive_ifft cmul real poly1 poly2
    = Ok product_coeffs /\
    Py.len product_coeffs = Py.len poly1 + Py.len poly2 - 1.
Proof.
  intros H1 H2.
  assert (Hl1 : 1 <= Py.len poly1) by (destruct poly1; [contradiction | unfold Py.len; simpl; lia]).
  assert (Hl2 : 1 <= Py.len poly2) by (destruct poly2; [contradiction | unfold Py.len; simpl; lia]).
  unfold FFT.poly_mul, FFT.product_coeffs_no_pad.
  set (product_len := Py.len poly1 + Py.len poly2 - 1).
  set (n := FFT.next_power_of_two (Z.to_nat product_len) 1 product_len).
  destruct (next_power_of_two_pow (Z.to_nat product_len) 0 product_len) as [[k Hk] _].
  change (2 ^ Z.of_nat 0) with 1 in Hk.
  pose proof (next_power_of_two_reached product_len) as Hge.
  fold n in Hk, Hge.
  set (op1 := rev (Py.replicate 0 (n - product_len)
                     ++ Py.replicate 0 (product_len - Py.len poly1) ++ poly1)).
  set (op2 := rev (Py.replicate 0 (n - product_len)
                     ++ Py.replicate 0 (product_len - Py.len poly2) ++ poly2)).
  assert (Hop1 : Py.len op1 = n).
  { unfold op1, Py.len in *. rewrite length_rev, !length_app, !length_replicate. lia. }
  assert (Hop2 : Py.len op2 = n).
  { unfold op2, Py.len in *. rewrite length_rev, !length_app, !length_replicate. lia. }
  pose proof (recursive_fft_length op1 k ltac:(lia)) as He1.
  pose proof (recursive_fft_length op2 k ltac:(lia)) as He2.
  assert (Hn : Z.to_nat n = length (recursive_fft op1)) by (unfold Py.len in *; lia).
  destruct (recursive_fft op1) as [|d0 evals1] eqn:E1.
  { exfalso. simpl in Hn. unfold Py.len in *. lia. }
  rewrite <- E1 in *. clear E1.
  rewrite (mapM_pure _ (fun i => cmul (nth i (recursive_fft op1) d0)
                                      (nth i (recursive_fft op2) d0))).
  2:{ intros i Hi. apply in_seq in Hi.
      rewrite (getitem_nth _ i d0) by lia. cbn [bind].
      rewrite (getitem_nth _ i d0) by (unfold Py.len in *; lia). reflexivity. }
  cbn [bind].
  set (evals := map _ (seq 0 (Z.to_nat n))).
  assert (Hev : Py.len evals = n).
  { unfold evals, Py.len. rewrite length_map, length_seq. lia. }
  pose proof (recursive_ifft_length evals k ltac:(lia)) as Hif.
  eexists. split; [reflexivity|].
  unfold Py.len at 1. rewrite length_map, length_rev.
  assert (Hlen : Py.len (recursive_ifft evals) = n) by (unfold Py.len in *; lia).
  rewrite Hlen.
  destruct (Z.eqb_spec (n - product_len) 0) as [Hz | Hnz].
  - unfold Py.len in Hlen. lia.
  - rewrite length_slice_to by (rewrite Hlen; lia). rewrite Hlen. lia.
Qed.

End TransformLength.

Lemma length_dft sign l : length (FFTExample.dft sign l) = length l.
Proof. unfold FFTExample.dft. now rewrite length_map, length_seq. Qed.

Lemma poly_mul_length_witness :
  exists product_coeffs,
    FFTExample.poly_mul [1; 2] [1; 3] = Ok product_coeffs /\
    Py.len product_coeffs = Py.len [1; 2] + Py.len [1; 3] - 1.
Proof.
  apply (poly_mul_length FFTExample.complex FFTExample.recursive_fft
           FFTExample.recursive_ifft FFTExample.cmul FFTExample.real).
  - intros l k _. unfold FFTExample.recursive_fft.
    now rewrite length_dft, length_map.
  - intros l k _. unfold FFTExample.recursive_ifft.
    now rewrite length_map, length_dft.
  - discriminate.
  - discriminate.
Defined.
